(** * bizutil/registry: lazily created, grouped, named resources

    A shallow embedding of the Go package [registry] (files [open.go],
    [error.go], [close.go] and the [Group]/[Manager] interfaces) together
    with the properties its specification states about it.

    - Go's [error] interface values are modelled by [errorValue], the three
      concrete error types the package and its tests ever build
      ([*errors.errorString], [*fmt.wrapError], [*fmt.wrapErrors]); each
      carries the address it was allocated at, so that Go's [==] on errors
      (pointer identity) is equality of the modelled values.
    - The registry is sequential state: the manager with its nested maps,
      the world the two callbacks act on, a log of every callback
      invocation, and the next free address of the allocator.
    - The reader/writer lock is not modelled; every operation runs
      atomically, which is what the single lock enforces. *)

From stdpp Require Import gmap strings list fin_maps.

Set Default Proof Using "Type".

(** ** Go errors *)

Definition addr := nat.

(** The dynamic values an [error] interface holds in this package. *)
#[warnings="-register-all"]
Inductive errorValue : Type :=
  | errorString (p : addr) (s : string)
      (* errors.New(s) *)
  | wrapError (p : addr) (msg : string) (err : option errorValue)
      (* fmt.Errorf with one %w operand *)
  | wrapErrors (p : addr) (msg : string) (errs : list errorValue).
      (* fmt.Errorf with several %w operands *)

(** Go's [error]: an interface value that may be nil. *)
Abbreviation error := (option errorValue).

(** Induction principle that also descends into the wrapped errors. *)
Section errorValue_ind_nested.
Variable P : errorValue → Prop.
Hypothesis H_string : ∀ p s, P (errorString p s).
Hypothesis H_wrap_nil : ∀ p msg, P (wrapError p msg None).
Hypothesis H_wrap : ∀ p msg e, P e → P (wrapError p msg (Some e)).
Hypothesis H_wraps : ∀ p msg es, Forall P es → P (wrapErrors p msg es).

Fixpoint errorValue_ind_nested (e : errorValue) : P e :=
  match e with
  | errorString p s => H_string p s
  | wrapError p msg None => H_wrap_nil p msg
  | wrapError p msg (Some e') => H_wrap p msg e' (errorValue_ind_nested e')
  | wrapErrors p msg es =>
      H_wraps p msg es
        ((fix go (l : list errorValue) : Forall P l :=
            match l with
            | [] => @List.Forall_nil _ P
            | x :: l' => @List.Forall_cons _ P x l' (errorValue_ind_nested x) (go l')
            end) es)
  end.
End errorValue_ind_nested.

(** Go's [==] on two non-nil error values of these pointer types. *)
Fixpoint errorValue_eqb (a b : errorValue) : bool :=
  match a, b with
  | errorString p s, errorString q t => bool_decide (p = q) && bool_decide (s = t)
  | wrapError p m None, wrapError q n None =>
      bool_decide (p = q) && bool_decide (m = n)
  | wrapError p m (Some x), wrapError q n (Some y) =>
      bool_decide (p = q) && bool_decide (m = n) && errorValue_eqb x y
  | wrapErrors p m xs, wrapErrors q n ys =>
      bool_decide (p = q) && bool_decide (m = n) &&
      (fix go (l1 l2 : list errorValue) : bool :=
         match l1, l2 with
         | [], [] => true
         | x :: l1', y :: l2' => errorValue_eqb x y && go l1' l2'
         | _, _ => false
         end) xs ys
  | _, _ => false
  end.

(** The [Error()] method of the three types. *)
Definition Error (e : errorValue) : string :=
  match e with
  | errorString _ s => s
  | wrapError _ msg _ => msg
  | wrapErrors _ msg _ => msg
  end.

(** [errors.is]: walk the chain of [err]; none of the three types has an
    [Is] method, [*wrapError] unwraps to one error and [*wrapErrors] to a
    slice that is searched depth first. *)
Fixpoint is_ (err target : errorValue) : bool :=
  errorValue_eqb err target ||
  match err with
  | errorString _ _ => false
  | wrapError _ _ None => false
  | wrapError _ _ (Some e) => is_ e target
  | wrapErrors _ _ es => existsb (λ e, is_ e target) es
  end.

(** [errors.Is]. *)
Definition errors_Is (err target : error) : bool :=
  match err, target with
  | Some e, Some t => is_ e t
  | None, None => true
  | _, _ => false
  end.

(** The address an error value lives at. *)
Definition addr_of (e : errorValue) : addr :=
  match e with
  | errorString p _ | wrapError p _ _ | wrapErrors p _ _ => p
  end.

(** ** error.go: the sentinels

    Package-level variables initialised by [errors.New] in declaration
    order; they occupy the first four addresses. *)

Definition ErrGroupNotFound : errorValue :=
  errorString 0 "bizutil.registry: group not found".
Definition ErrResourceNotFound : errorValue :=
  errorString 1 "bizutil.registry: resource not found".
Definition ErrCloseResourceFailed : errorValue :=
  errorString 2 "bizutil.registry: close resource failed".
Definition ErrPingResourceFailed : errorValue :=
  errorString 3 "bizutil.registry: ping resource failed".

(** ** Package maputil *)

Section maputil.

(** [T], [K] and [V] are the type parameters; a Go map with comparable
    keys is a finite map, and the nil map has no entries. *)
Context {T K V : Type} `{Countable K}.

(** [var zero V]. *)
Variable zeroV : V.

(** [MapGet]; the function [value] may be nil. *)
Definition MapGet (m : gmap K T) (key : K) (value : option (T → V)) : V * bool :=
  match m !! key with
  | None => (zeroV, false)
  | Some v =>
      match value with
      | None => (zeroV, true)
      | Some f => (f v, true)
      end
  end.

(** [MapBy]: one assignment [m[key(v)] = value(v)] per element, in order. *)
Definition MapBy (l : list T) (key : T → K) (value : T → V) : gmap K V :=
  fold_left (λ m v, <[key v := value v]> m) l ∅.

End maputil.

(** ** The registry *)

Section Registry.

(** [Ctx] stands for [context.Context], [C] and [T] are the package's type
    parameters, and [W] is whatever state the two callbacks read and write
    (a counter, a set of open handles, the outside world). *)
Context {Ctx C T W : Type}.

(** [var zero T]: the zero value of the resource type. *)
Variable zero : T.

(** The rendering of a string by fmt's [%q] verb. *)
Variable quote : string → string.

(** The order in which a [for ... range] statement visits a map; Go leaves
    it unspecified, so it is a parameter. *)
Variable range : ∀ A : Type, gmap string A → list (string * A).

(** open.go: [type Opener[C, T] func(ctx, cfg C) (T, error)]. *)
Definition Opener : Type := Ctx → C → W → (T * error) * W.

(** close.go: [type Closer[T] func(ctx, t T) error]. *)
Definition Closer : Type := Ctx → T → W → error * W.

(** open.go: [connection]. *)
Record connection : Type := mkConnection {
  cfg : C;
  val : T;
  ready : bool
}.

(** open.go: [manager]; [closer] may be nil. *)
Record manager : Type := mkManager {
  groups : gmap string (gmap string connection);
  opener : Opener;
  closer : option Closer
}.

(** open.go: [group]; its field [m] points to the one manager of the
    run-time state below. *)
Record group : Type := mkGroup {
  name : string
}.

(** One invocation of a callback, with what it returned. *)
Inductive call : Type :=
  | OpenerCall (ctx : Ctx) (c : C) (res : T * error)
  | CloserCall (ctx : Ctx) (t : T) (res : error).

(** What a run of the program acts on: the one manager every group handle
    points to, the world of the callbacks, the log of the callback
    invocations made so far (oldest first), and the address the next
    allocated error value will get. *)
Record runtime : Type := mkRuntime {
  mgr : manager;
  world : W;
  calls : list call;
  next : addr
}.

(** State-passing computations. *)
Definition M (A : Type) : Type := runtime → A * runtime.

Definition ret {A : Type} (a : A) : M A := λ rt, (a, rt).

Definition bind {A B : Type} (c : M A) (k : A → M B) : M B :=
  λ rt, k (c rt).1 (c rt).2.

Notation "'let*' x := c 'in' k" := (bind c (λ x, k))
  (at level 10, x pattern, c at level 100, k at level 200, only parsing).

Definition getGroups : M (gmap string (gmap string connection)) :=
  λ rt, (groups (mgr rt), rt).

(** The run-time state after the manager's [groups] have become [gs]. *)
Definition withGroups (gs : gmap string (gmap string connection)) (rt : runtime)
    : runtime :=
  mkRuntime (mkManager gs (opener (mgr rt)) (closer (mgr rt)))
            (world rt) (calls rt) (next rt).

Definition setGroups (gs : gmap string (gmap string connection)) : M unit :=
  λ rt, (tt, withGroups gs rt).

Definition getCloser : M (option Closer) := λ rt, (closer (mgr rt), rt).

(** Allocation of one object. *)
Definition new : M addr :=
  λ rt, (next rt, mkRuntime (mgr rt) (world rt) (calls rt) (S (next rt))).

(** [g.m.opener(ctx, cfg)]. *)
Definition callOpener (ctx : Ctx) (c : C) : M (T * error) :=
  λ rt, let r := opener (mgr rt) ctx c (world rt) in
        (r.1, mkRuntime (mgr rt) r.2 (calls rt ++ [OpenerCall ctx c r.1]) (next rt)).

(** [closer(ctx, t)] for a non-nil [closer]. *)
Definition callCloser (cl : Closer) (ctx : Ctx) (t : T) : M error :=
  λ rt, let r := cl ctx t (world rt) in
        (r.1, mkRuntime (mgr rt) r.2 (calls rt ++ [CloserCall ctx t r.1]) (next rt)).

(** A loop over a slice of entries that threads an accumulator. *)
Fixpoint forRange {A S : Type} (l : list A) (body : S → A → M S) (acc : S) : M S :=
  match l with
  | [] => ret acc
  | x :: l' => let* acc' := body acc x in forRange l' body acc'
  end.

(** *** fmt.Errorf, for the two shapes of format string in error.go *)

(** How [%w] prints its operand. *)
Definition fmt_w (e : error) : string :=
  match e with
  | Some v => Error v
  | None => "%!w(<nil>)"
  end.

(** One [%w]: a [*fmt.wrapError] around the operand. *)
Definition Errorf_w (msg : string) (e : error) : M error :=
  let* p := new in ret (Some (wrapError p msg e)).

(** Two [%w]: a [*fmt.wrapErrors] around the operands that are errors. *)
Definition Errorf_ww (msg : string) (e1 e2 : error) : M error :=
  let* p := new in ret (Some (wrapErrors p msg (omap id [e1; e2]))).

(** *** error.go: the constructors *)

Definition NewErrGroupNotFound (groupName : string) : M error :=
  Errorf_w ("group " +:+ quote groupName +:+ " not found: "
            +:+ fmt_w (Some ErrGroupNotFound))
           (Some ErrGroupNotFound).

Definition NewErrResourceNotFound (groupName resourceName : string) : M error :=
  Errorf_w ("resource " +:+ quote resourceName +:+ " not found from group "
            +:+ quote groupName +:+ ": " +:+ fmt_w (Some ErrResourceNotFound))
           (Some ErrResourceNotFound).

Definition NewErrCloseResourceFailed (groupName resourceName : string) (err : error)
    : M error :=
  Errorf_ww ("close resource " +:+ quote resourceName +:+ " in group "
             +:+ quote groupName +:+ " failed: "
             +:+ fmt_w (Some ErrCloseResourceFailed) +:+ ": " +:+ fmt_w err)
            (Some ErrCloseResourceFailed) err.

(** The argument [err] is not an operand of the format string. *)
Definition NewErrPingResourceFailed (groupName resourceName : string) (err : error)
    : M error :=
  Errorf_w ("ping resource " +:+ quote resourceName +:+ " in group "
            +:+ quote groupName +:+ " failed: " +:+ fmt_w (Some ErrPingResourceFailed))
           (Some ErrPingResourceFailed).

(** *** open.go: the manager *)

Definition New (opener : Opener) (closer : option Closer) : manager :=
  mkManager ∅ opener closer.

Definition manager_Group (name : string) : M (option group * error) :=
  let* gs := getGroups in
  match gs !! name with
  | None => let* e := NewErrGroupNotFound name in ret (None, e)
  | Some _ => ret (Some (mkGroup name), None)
  end.

(** The body of the inner loop shared by both [Close] methods. *)
Definition closeConn (ctx : Ctx) (groupName : string)
    (errs : list error) (entry : string * connection) : M (list error) :=
  let '(name, conn) := entry in
  if negb (ready conn) then ret errs
  else
    let* cl := getCloser in
    match cl with
    | None => ret errs
    | Some cl =>
        let* err := callCloser cl ctx (val conn) in
        match err with
        | Some _ =>
            let* e := NewErrCloseResourceFailed groupName name err in
            ret (errs ++ [e])
        | None => ret errs
        end
    end.

Definition manager_Close (ctx : Ctx) : M (list error) :=
  let* gs := getGroups in
  let* errs :=
    forRange (range _ gs)
      (λ errs entry, forRange (range _ entry.2) (closeConn ctx entry.1) errs) [] in
  let* _ := setGroups ∅ in
  ret errs.

Definition manager_AddGroup (name : string) : M bool :=
  let* gs := getGroups in
  match gs !! name with
  | None => let* _ := setGroups (<[name := ∅]> gs) in ret false
  | Some _ => ret true
  end.

Definition manager_ListGroupNames : M (list string) :=
  let* gs := getGroups in ret ((range _ gs).*1).

(** *** open.go: the group *)

Definition group_Get (g : group) (ctx : Ctx) (rname : string) : M (T * error) :=
  (* fast path, under the read lock *)
  let* gs := getGroups in
  match gs !! name g with
  | None => let* e := NewErrGroupNotFound (name g) in ret (zero, e)
  | Some groupMap =>
  match groupMap !! rname with
  | None => let* e := NewErrResourceNotFound (name g) rname in ret (zero, e)
  | Some conn =>
  if ready conn then ret (val conn, None)
  else
    (* slow path, under the write lock: resolve again *)
    let* gs := getGroups in
    match gs !! name g with
    | None => let* e := NewErrGroupNotFound (name g) in ret (zero, e)
    | Some groupMap =>
    match groupMap !! rname with
    | None => let* e := NewErrResourceNotFound (name g) rname in ret (zero, e)
    | Some conn =>
    if ready conn then ret (val conn, None)
    else
      let* r := callOpener ctx (cfg conn) in
      match r.2 with
      | Some _ => ret (zero, r.2)
      | None =>
          let* _ := setGroups
            (<[name g := <[rname := mkConnection (cfg conn) r.1 true]> groupMap]> gs) in
          ret (r.1, None)
      end
    end end
  end end.

Definition group_Register (g : group) (ctx : Ctx) (rname : string) (c : C)
    : M (bool * error) :=
  let* gs := getGroups in
  let* groupMap :=
    match gs !! name g with
    | None => let* _ := setGroups (<[name g := ∅]> gs) in ret ∅
    | Some groupMap => ret groupMap
    end in
  match groupMap !! rname with
  | Some _ => ret (false, None)
  | None =>
      let* gs := getGroups in
      let* _ := setGroups (<[name g := <[rname := mkConnection c zero false]> groupMap]> gs) in
      ret (true, None)
  end.

Definition group_Unregister (g : group) (ctx : Ctx) (rname : string) : M error :=
  let* gs := getGroups in
  match gs !! name g with
  | None => NewErrGroupNotFound (name g)
  | Some groupMap =>
  match groupMap !! rname with
  | None => NewErrResourceNotFound (name g) rname
  | Some conn =>
      let* cl := getCloser in
      let* _ :=
        match ready conn, cl with
        | true, Some cl => let* _ := callCloser cl ctx (val conn) in ret tt
        | _, _ => ret tt
        end in
      let* gs := getGroups in
      let* _ := setGroups (<[name g := delete rname groupMap]> gs) in
      ret None
  end end.

Definition group_List (g : group) : M (list string) :=
  let* gs := getGroups in
  match gs !! name g with
  | None => ret []
  | Some groupMap => ret ((range _ groupMap).*1)
  end.

Definition group_Close (g : group) (ctx : Ctx) : M (list error) :=
  let* gs := getGroups in
  match gs !! name g with
  | None => ret []
  | Some groupMap =>
      let* errs := forRange (range _ groupMap) (closeConn ctx (name g)) [] in
      let* gs := getGroups in
      let* _ := setGroups (delete (name g) gs) in
      ret errs
  end.

(** [NewGroup]: a manager with the default group already present. *)
Definition defaultGroupName : string := "defaultGroup".

Definition NewGroup (opener : Opener) (closer : option Closer) : manager * group :=
  (mkManager (<[defaultGroupName := ∅]> ∅) opener closer, mkGroup defaultGroupName).

(** Modelled from the spec: [group.Ping], declared in the [Group] interface
    and exercised by the tests, but whose body is not among the sources.
    The spec: resolve the group and the record as the other methods do
    ([GroupNotFound], [ResourceNotFound]); always invoke the creation
    callback on the stored configuration; never store the result, leaving
    [ready] and the cached value as they were; on callback failure fail with
    the wrapped [PingResourceFailed] condition, on success return no error. *)
Definition group_Ping (g : group) (ctx : Ctx) (rname : string) : M error :=
  let* gs := getGroups in
  match gs !! name g with
  | None => NewErrGroupNotFound (name g)
  | Some groupMap =>
  match groupMap !! rname with
  | None => NewErrResourceNotFound (name g) rname
  | Some conn =>
      let* r := callOpener ctx (cfg conn) in
      match r.2 with
      | Some _ => NewErrPingResourceFailed (name g) rname r.2
      | None => ret None
      end
  end end.

(** *** open.go: the panicking variants *)

(** How a call that may panic ends. *)
Inductive outcome (A : Type) : Type :=
  | Returns (a : A)
  | Panics (e : error).
Arguments Returns {A} a.
Arguments Panics {A} e.

Definition manager_MustGroup (name : string) : M (outcome (option group)) :=
  let* r := manager_Group name in
  match r.2 with
  | Some _ => ret (Panics r.2)
  | None => ret (Returns r.1)
  end.

Definition group_MustGet (g : group) (ctx : Ctx) (rname : string) : M (outcome T) :=
  let* r := group_Get g ctx rname in
  match r.2 with
  | Some _ => ret (Panics r.2)
  | None => ret (Returns r.1)
  end.

(** *** Vocabulary of the statements *)

(** The four sentinels of error.go. *)
Definition sentinels : list errorValue :=
  [ErrGroupNotFound; ErrResourceNotFound; ErrCloseResourceFailed;
   ErrPingResourceFailed].

(** A log entry that records an invocation of the opener. *)
Definition isOpenerCall (x : call) : Prop :=
  match x with
  | OpenerCall _ _ _ => True
  | CloserCall _ _ _ => False
  end.

(** Every record that is not ready holds the zero value. *)
Definition unreadyHoldZero (rt : runtime) : Prop :=
  ∀ gn n c, groups (mgr rt) !! gn ≫= (.!! n) = Some c → ready c = false → val c = zero.

(** The record stored under a resource name of a group, if any. *)
Definition record (rt : runtime) (groupName rname : string) : option connection :=
  groups (mgr rt) !! groupName ≫= (.!! rname).

(** The run-time state right after one invocation of the opener. *)
Definition afterOpener (ctx : Ctx) (c : C) (rt : runtime) : runtime :=
  (callOpener ctx c rt).2.

(** The records of one group, in the order a [range] over the group visits
    them, each paired with the group's name. *)
Definition groupEntries (groupName : string) (groupMap : gmap string connection)
    : list (string * (string * connection)) :=
  (λ e, (groupName, e)) <$> range _ groupMap.

(** The records of the whole registry, in the order the nested [range]
    loops of [manager.Close] visit them. *)
Definition entries (gs : gmap string (gmap string connection))
    : list (string * (string * connection)) :=
  range _ gs ≫= λ ge, groupEntries ge.1 ge.2.

(** The loop of [Close] over a list of records, each tagged with the name
    of its group. *)
Definition closeAll (ctx : Ctx) (es : list (string * (string * connection)))
    (errs : list error) : M (list error) :=
  forRange es (λ errs e, closeConn ctx e.1 errs e.2) errs.

(** Those of a list of records whose [ready] flag is set. *)
Definition readyOnly (es : list (string * (string * connection)))
    : list (string * (string * connection)) :=
  filter (λ e, ready e.2.2 = true) es.

(** The closer invoked on each value of a list in turn, each invocation in
    the world the previous one left, whatever the previous one returned. *)
Fixpoint teardown (cl : Closer) (ctx : Ctx) (ts : list T) (w : W)
    : list error * W :=
  match ts with
  | [] => ([], w)
  | t :: ts' =>
      let r := cl ctx t w in
      let rs := teardown cl ctx ts' r.2 in
      (r.1 :: rs.1, rs.2)
  end.

(** The log entries of closing the records [es] with results [rs]. *)
Definition closerCalls (ctx : Ctx) (es : list (string * (string * connection)))
    (rs : list error) : list call :=
  zip_with (λ e res, CloserCall ctx (val e.2.2) res) es rs.

(** [err] is the error [NewErrCloseResourceFailed] builds for the record
    [x.1] and the closer's result [x.2]. *)
Definition closeFailureOf (err : error)
    (x : (string * (string * connection)) * error) : Prop :=
  ∃ rt0, err = (NewErrCloseResourceFailed x.1.1 x.1.2.1 x.2 rt0).1.

(** The failed ones among closings with their results. *)
Definition failures (xs : list ((string * (string * connection)) * error))
    : list ((string * (string * connection)) * error) :=
  filter (λ x, is_Some x.2) xs.

(** ** Properties *)

Ltac unfold_monad :=
  unfold Errorf_w, Errorf_ww, bind, ret, getGroups, setGroups, getCloser, new,
    callOpener, callCloser in *.

(** *** Errors *)

Lemma errorValue_eqb_eq (a b : errorValue) : errorValue_eqb a b = true ↔ a = b.
Proof.
  revert b. induction a as [p s|p m|p m x IH|p m xs IH] using errorValue_ind_nested;
    intros [q t|q n [y|]|q n ys]; simpl;
    rewrite ?andb_true_iff, ?bool_decide_eq_true; try (split; [done|congruence]).
  - split; [intros [-> ->]; done | intros [= -> ->]; done].
  - split; [intros [-> ->]; done | intros [= -> ->]; done].
  - rewrite IH. split; [intros [[-> ->] ->]; done | intros [= -> -> ->]; done].
  - assert (Hl : ∀ ys,
      (fix go (l1 l2 : list errorValue) : bool :=
         match l1, l2 with
         | [], [] => true
         | x :: l1', y :: l2' => errorValue_eqb x y && go l1' l2'
         | _, _ => false
         end) xs ys = true ↔ xs = ys).
    { clear ys. induction IH as [|x xs Hx _ IHxs]; intros [|y ys];
        try (split; [done|congruence]).
      rewrite andb_true_iff, Hx, IHxs.
      split; [intros [-> ->]; done | intros [= -> ->]; done]. }
    rewrite Hl. split; [intros [[-> ->] ->]; done | intros [= -> -> ->]; done].
Qed.

Lemma errorValue_eqb_refl (e : errorValue) : errorValue_eqb e e = true.
Proof.
  induction e as [p s|p m|p m x IH|p m xs IH] using errorValue_ind_nested; simpl;
    rewrite ?bool_decide_eq_true_2 by done; simpl; try done.
  induction IH as [|x xs Hx _ IHxs]; [done|]. by rewrite Hx, IHxs.
Qed.

Lemma is_unfold (err target : errorValue) :
  is_ err target =
    errorValue_eqb err target ||
    match err with
    | errorString _ _ => false
    | wrapError _ _ None => false
    | wrapError _ _ (Some e) => is_ e target
    | wrapErrors _ _ es => existsb (λ e, is_ e target) es
    end.
Proof. by destruct err. Qed.

Lemma is_refl (e : errorValue) : is_ e e = true.
Proof. by rewrite is_unfold, errorValue_eqb_refl. Qed.

Lemma withGroups_id (rt : runtime) : withGroups (groups (mgr rt)) rt = rt.
Proof. by destruct rt as [[] ? ? ?]. Qed.

(** C7. [AddGroup] on an absent name creates an empty group and returns
    false (the group did not exist); calling it again returns true and
    leaves the state as it is; [Group] then yields a handle for that name
    and no error, while [Group] for any name that is not in the registry
    yields no handle and an error matching [ErrGroupNotFound]. *)
Theorem AddGroup_then_Group (rt : runtime) (n : string) :
  groups (mgr rt) !! n = None →
  let rt1 := (manager_AddGroup n rt).2 in
  manager_AddGroup n rt = (false, withGroups (<[n := ∅]> (groups (mgr rt))) rt) ∧
  manager_AddGroup n rt1 = (true, rt1) ∧
  manager_Group n rt1 = ((Some (mkGroup n), None), rt1) ∧
  ∀ missing, groups (mgr rt1) !! missing = None →
    (manager_Group missing rt1).1.1 = None ∧
    errors_Is (manager_Group missing rt1).1.2 (Some ErrGroupNotFound) = true.
Proof.
  intros Hn. unfold manager_AddGroup, manager_Group. unfold_monad. cbn.
  rewrite Hn. cbn. rewrite lookup_insert_eq. cbn.
  repeat split; try done.
  - by rewrite H.
  - rewrite H. cbn. done.
Qed.

(** *** Register *)

Lemma record_withGroups gs rt gn n :
  record (withGroups gs rt) gn n = gs !! gn ≫= (.!! n).
Proof. done. Qed.

Lemma group_Register_record (rt : runtime) (g : group) (ctx : Ctx)
    (rname : string) (c : C) :
  let r := group_Register g ctx rname c rt in
  record r.2 (name g) rname =
    Some (default (mkConnection c zero false) (record rt (name g) rname)) ∧
  calls r.2 = calls rt ∧ world r.2 = world rt ∧
  opener (mgr r.2) = opener (mgr rt).
Proof.
  unfold group_Register, record. unfold_monad. cbn.
  destruct (groups (mgr rt) !! name g) as [gm|] eqn:Hg; cbn.
  - destruct (gm !! rname) as [conn|] eqn:Hn; cbn.
    + rewrite Hg; cbn. by rewrite Hn.
    + rewrite lookup_insert_eq; cbn. by rewrite lookup_insert_eq.
  - rewrite lookup_empty; cbn. rewrite lookup_insert_eq; cbn.
    split_and!; try done. apply lookup_insert_eq.
Qed.

(** C3. [Register] returns true exactly when the name was not yet in the
    group.  In that case the group then holds, under that name, a record
    with the given configuration, the zero value and [ready = false]; when
    the name was present nothing at all changes, so the record keeps its
    original configuration.  Afterwards the group exists, whether or not it
    did before.  Every other record and every other group is as before, and
    no callback runs: the call log and the callbacks' world are untouched. *)
Theorem Register_inserts_once (rt : runtime) (g : group) (ctx : Ctx)
    (rname : string) (c : C) :
  let r := group_Register g ctx rname c rt in
  (r.1.1 = true ↔ record rt (name g) rname = None) ∧
  record r.2 (name g) rname =
    Some (default (mkConnection c zero false) (record rt (name g) rname)) ∧
  (is_Some (record rt (name g) rname) → r.2 = rt) ∧
  is_Some (groups (mgr r.2) !! name g) ∧
  (∀ gn n, (gn, n) ≠ (name g, rname) → record r.2 gn n = record rt gn n) ∧
  (∀ gn, gn ≠ name g → groups (mgr r.2) !! gn = groups (mgr rt) !! gn) ∧
  calls r.2 = calls rt ∧ world r.2 = world rt ∧ next r.2 = next rt ∧
  opener (mgr r.2) = opener (mgr rt) ∧ closer (mgr r.2) = closer (mgr rt).
Proof.
  unfold group_Register, record. unfold_monad. cbn.
  destruct (groups (mgr rt) !! name g) as [gm|] eqn:Hg; cbn.
  - destruct (gm !! rname) as [conn|] eqn:Hn; cbn.
    + rewrite Hg; cbn. rewrite Hn. repeat split; eauto; done.
    + rewrite lookup_insert_eq; cbn. rewrite lookup_insert_eq.
      split_and!; eauto; try done.
      * intros gn n Hne. destruct (decide (gn = name g)) as [->|Hgn].
        -- rewrite lookup_insert_eq, Hg; cbn.
           rewrite lookup_insert_ne; [done|congruence].
        -- by rewrite lookup_insert_ne.
      * intros gn Hgn. by rewrite lookup_insert_ne.
  - rewrite lookup_empty; cbn. rewrite lookup_insert_eq; cbn.
    rewrite insert_insert_eq.
    split_and!; eauto; try done.
    + apply lookup_insert_eq.
    + intros gn n Hne. destruct (decide (gn = name g)) as [->|Hgn].
      * rewrite lookup_insert_eq, Hg; cbn.
        rewrite lookup_insert_ne; [by rewrite lookup_empty|congruence].
      * by rewrite lookup_insert_ne.
    + intros gn Hgn. by rewrite lookup_insert_ne.
Qed.

(** C10. [Register] returns a nil error on every handle, name and
    configuration, also when the handle's group is no longer in the
    registry: the group is present once the call returns. *)
Theorem Register_error_is_nil (rt : runtime) (g : group) (ctx : Ctx)
    (rname : string) (c : C) :
  (group_Register g ctx rname c rt).1.2 = None ∧
  is_Some (groups (mgr (group_Register g ctx rname c rt).2) !! name g).
Proof.
  unfold group_Register. unfold_monad. cbn.
  destruct (groups (mgr rt) !! name g) as [gm|] eqn:Hg; cbn.
  - destruct (gm !! rname); cbn; [by rewrite Hg|].
    split; [done|]. by rewrite lookup_insert_eq.
  - rewrite lookup_empty; cbn.
    split; [done|]. by rewrite lookup_insert_eq.
Qed.

(** *** Get *)

Lemma group_Get_registered (rt : runtime) (g : group) (ctx : Ctx)
    (rname : string) (gm : gmap string connection) (conn : connection) :
  groups (mgr rt) !! name g = Some gm →
  gm !! rname = Some conn →
  group_Get g ctx rname rt =
    if ready conn then ((val conn, None), rt)
    else
      let o := opener (mgr rt) ctx (cfg conn) (world rt) in
      match o.1.2 with
      | Some e => ((zero, Some e), afterOpener ctx (cfg conn) rt)
      | None =>
          ((o.1.1, None),
           withGroups (<[name g := <[rname := mkConnection (cfg conn) o.1.1 true]> gm]>
                         (groups (mgr rt)))
                      (afterOpener ctx (cfg conn) rt))
      end.
Proof.
  intros Hg Hn. unfold group_Get, afterOpener. unfold_monad.
  cbn. rewrite Hg; cbn. rewrite Hn; cbn.
  destruct (ready conn) eqn:Hr; [done|].
  rewrite Hg; cbn. rewrite Hn; cbn. rewrite Hr.
  by destruct (opener (mgr rt) ctx (cfg conn) (world rt)) as [[v [e|]] w].
Qed.

(** C1. For a record registered in a group of the registry: if it is ready,
    [Get] returns its cached value and no error and leaves the whole state,
    call log included, as it is.  If it is not ready, [Get] invokes the
    opener once, on the stored configuration.  When the opener succeeds,
    [Get] returns the opener's value and the record becomes that value with
    [ready = true].  When the opener fails, [Get] returns the zero value and
    the opener's error itself, the manager is unchanged (the record is still
    unready), and the next [Get] for the name invokes the opener again. *)
Theorem Get_caches_on_success (rt : runtime) (g : group) (ctx : Ctx)
    (rname : string) (gm : gmap string connection) (conn : connection) :
  groups (mgr rt) !! name g = Some gm →
  gm !! rname = Some conn →
  let o := opener (mgr rt) ctx (cfg conn) (world rt) in
  let called := afterOpener ctx (cfg conn) rt in
  if ready conn then
    group_Get g ctx rname rt = ((val conn, None), rt)
  else
    calls called = calls rt ++ [OpenerCall ctx (cfg conn) o.1] ∧
    world called = o.2 ∧
    match o.1.2 with
    | None =>
        group_Get g ctx rname rt =
          ((o.1.1, None),
           withGroups (<[name g := <[rname := mkConnection (cfg conn) o.1.1 true]> gm]>
                         (groups (mgr rt))) called)
    | Some e =>
        group_Get g ctx rname rt = ((zero, Some e), called) ∧
        mgr called = mgr rt ∧
        record called (name g) rname = Some conn ∧
        calls (group_Get g ctx rname called).2 =
          calls rt ++ [OpenerCall ctx (cfg conn) o.1;
                       OpenerCall ctx (cfg conn)
                         (opener (mgr rt) ctx (cfg conn) o.2).1]
    end.
Proof.
  intros Hg Hn. cbn zeta.
  rewrite (group_Get_registered rt g ctx rname gm conn Hg Hn).
  destruct (ready conn) eqn:Hr; [done|].
  split; [done|]. split; [done|]. cbn zeta.
  destruct (opener (mgr rt) ctx (cfg conn) (world rt)) as [[v [e|]] w] eqn:Ho;
    cbn [fst snd]; [|done].
  split_and!; try done.
  - unfold record, afterOpener, callOpener; cbn. by rewrite Hg.
  - rewrite (group_Get_registered _ g ctx rname gm conn) by done.
    rewrite Hr. unfold afterOpener, callOpener; cbn. rewrite Ho; cbn.
    destruct (opener (mgr rt) ctx (cfg conn) w) as [[v' [e'|]] w'] eqn:Ho'; cbn;
      by rewrite <- app_assoc.
Qed.

(** *** Ping *)

(** C2. For a record registered in a group, ready or not: [Ping] invokes
    the opener once on the stored configuration and leaves the manager as
    it was, so the record's [ready] flag and cached value are what they
    were.  It returns nil when the opener succeeds and an error matching
    [ErrPingResourceFailed] when it fails.  A second [Ping] invokes the
    opener again.  A [Get] after the [Ping] still returns the cached value
    without a call if the record was ready, and still invokes the opener if
    it was not. *)
Theorem Ping_stores_nothing (rt : runtime) (g : group) (ctx : Ctx)
    (rname : string) (gm : gmap string connection) (conn : connection) :
  groups (mgr rt) !! name g = Some gm →
  gm !! rname = Some conn →
  let o := opener (mgr rt) ctx (cfg conn) (world rt) in
  let r := group_Ping g ctx rname rt in
  mgr r.2 = mgr rt ∧
  record r.2 (name g) rname = Some conn ∧
  calls r.2 = calls rt ++ [OpenerCall ctx (cfg conn) o.1] ∧
  world r.2 = o.2 ∧
  (o.1.2 = None → r.1 = None) ∧
  (is_Some o.1.2 → errors_Is r.1 (Some ErrPingResourceFailed) = true) ∧
  calls (group_Ping g ctx rname r.2).2 =
    calls rt ++ [OpenerCall ctx (cfg conn) o.1;
                 OpenerCall ctx (cfg conn) (opener (mgr rt) ctx (cfg conn) o.2).1] ∧
  (if ready conn then
     group_Get g ctx rname r.2 = ((val conn, None), r.2)
   else
     calls (group_Get g ctx rname r.2).2 =
       calls r.2 ++ [OpenerCall ctx (cfg conn)
                       (opener (mgr rt) ctx (cfg conn) o.2).1]).
Proof.
  intros Hg Hn. cbn zeta.
  assert (Hrun : ∀ rt', mgr rt' = mgr rt →
    mgr (group_Ping g ctx rname rt').2 = mgr rt ∧
    calls (group_Ping g ctx rname rt').2 =
      calls rt' ++ [OpenerCall ctx (cfg conn)
                      (opener (mgr rt) ctx (cfg conn) (world rt')).1] ∧
    world (group_Ping g ctx rname rt').2 =
      (opener (mgr rt) ctx (cfg conn) (world rt')).2 ∧
    ((opener (mgr rt) ctx (cfg conn) (world rt')).1.2 = None →
       (group_Ping g ctx rname rt').1 = None) ∧
    (is_Some (opener (mgr rt) ctx (cfg conn) (world rt')).1.2 →
       errors_Is (group_Ping g ctx rname rt').1 (Some ErrPingResourceFailed) = true)).
  { intros [m' w' c' n'] Hm. cbn in Hm. subst m'.
    unfold group_Ping, NewErrPingResourceFailed. unfold_monad.
    cbn. rewrite Hg; cbn. rewrite Hn; cbn.
    destruct (opener (mgr rt) ctx (cfg conn) w') as [[v [e|]] w]; cbn;
      split_and!; try done. }
  destruct (Hrun rt eq_refl) as (Hm & Hc & Hw & Hok & Hfail).
  destruct (Hrun _ Hm) as (Hm2 & Hc2 & Hw2 & _ & _).
  split_and!; try done.
  - unfold record. by rewrite Hm, Hg.
  - by rewrite Hc2, Hc, Hw, <- app_assoc.
  - rewrite (group_Get_registered _ g ctx rname gm conn) by (by rewrite ?Hm).
    destruct (ready conn) eqn:Hr; [done|]. cbn zeta. rewrite Hm, Hw.
    unfold afterOpener, callOpener; cbn. rewrite Hm, Hw.
    by destruct (opener (mgr rt) ctx (cfg conn)
                   (opener (mgr rt) ctx (cfg conn) (world rt)).2) as [[v [e|]] w].
Qed.

(** *** Unregister *)

(** C5. In an existing group: for a name that is not registered,
    [Unregister] returns an error matching [ErrResourceNotFound] and changes
    neither the manager nor the call log.  For a registered name it returns
    nil and the record is gone afterwards, whatever the closer returned.  If
    the record was ready and a closer is present, the closer is invoked
    once on the cached value, in the state that still holds the record, and
    the removal is applied to the state that call leaves.  If the record was
    not ready, or no closer is present, no callback is invoked. *)
Theorem Unregister_closes_then_removes (rt : runtime) (g : group) (ctx : Ctx)
    (rname : string) (gm : gmap string connection) :
  groups (mgr rt) !! name g = Some gm →
  let r := group_Unregister g ctx rname rt in
  match gm !! rname with
  | None =>
      errors_Is r.1 (Some ErrResourceNotFound) = true ∧
      mgr r.2 = mgr rt ∧ calls r.2 = calls rt ∧ world r.2 = world rt
  | Some conn =>
      r.1 = None ∧
      record r.2 (name g) rname = None ∧
      let removed := <[name g := delete rname gm]> (groups (mgr rt)) in
      match ready conn, closer (mgr rt) with
      | true, Some cl =>
          let closed := (callCloser cl ctx (val conn) rt).2 in
          record closed (name g) rname = Some conn ∧
          calls closed =
            calls rt ++ [CloserCall ctx (val conn) (cl ctx (val conn) (world rt)).1] ∧
          r.2 = withGroups removed closed
      | _, _ => r.2 = withGroups removed rt
      end
  end.
Proof.
  intros Hg. cbn zeta. unfold group_Unregister, NewErrResourceNotFound, record.
  unfold_monad. cbn. rewrite Hg; cbn.
  destruct (gm !! rname) as [conn|] eqn:Hn; cbn; [|done].
  destruct (ready conn), (closer (mgr rt)) as [cl|]; cbn;
    rewrite ?lookup_insert_eq; cbn; rewrite ?lookup_delete_eq, ?Hg; cbn;
    rewrite ?Hn; done.
Qed.

(** *** The two Close methods *)

Lemma forRange_app {A S : Type} (l1 l2 : list A) (body : S → A → M S)
    (acc : S) (rt : runtime) :
  forRange (l1 ++ l2) body acc rt =
    forRange l2 body (forRange l1 body acc rt).1 (forRange l1 body acc rt).2.
Proof.
  revert acc rt. induction l1 as [|x l1 IH]; intros acc rt; [done|].
  cbn [forRange app]. unfold bind. apply IH.
Qed.

Lemma forRange_fmap {A B S : Type} (f : A → B) (l : list A) (body : S → B → M S)
    (acc : S) (rt : runtime) :
  forRange (f <$> l) body acc rt = forRange l (λ a x, body a (f x)) acc rt.
Proof.
  revert acc rt. induction l as [|x l IH]; intros acc rt; [done|].
  cbn [forRange fmap list_fmap]. unfold bind. apply IH.
Qed.

Lemma forRange_nested {A B S : Type} (f : A → list B) (l : list A)
    (body : S → B → M S) (acc : S) (rt : runtime) :
  forRange l (λ a x, forRange (f x) body a) acc rt =
    forRange (l ≫= f) body acc rt.
Proof.
  revert acc rt. induction l as [|x l IH]; intros acc rt; [done|].
  cbn [forRange]. rewrite bind_cons, forRange_app. unfold bind at 1. apply IH.
Qed.

Lemma closeConn_unready (ctx : Ctx) (gn n : string) (c : connection)
    (errs : list error) (rt : runtime) :
  ready c = false → closeConn ctx gn errs (n, c) rt = (errs, rt).
Proof. intros Hr. unfold closeConn. by rewrite Hr. Qed.

Lemma closeConn_no_closer (ctx : Ctx) (gn n : string) (c : connection)
    (errs : list error) (rt : runtime) :
  closer (mgr rt) = None → closeConn ctx gn errs (n, c) rt = (errs, rt).
Proof.
  intros Hcl. unfold closeConn. destruct (ready c); [|done].
  cbn [negb]. unfold_monad. cbn. by rewrite Hcl.
Qed.

Lemma closeConn_ready (cl : Closer) (ctx : Ctx) (gn n : string) (c : connection)
    (errs : list error) (rt : runtime) :
  ready c = true →
  closer (mgr rt) = Some cl →
  closeConn ctx gn errs (n, c) rt =
    let closed := (callCloser cl ctx (val c) rt).2 in
    match (cl ctx (val c) (world rt)).1 with
    | Some e =>
        (errs ++ [(NewErrCloseResourceFailed gn n (Some e) closed).1],
         (NewErrCloseResourceFailed gn n (Some e) closed).2)
    | None => (errs, closed)
    end.
Proof.
  intros Hr Hcl. unfold closeConn. rewrite Hr. cbn [negb].
  unfold NewErrCloseResourceFailed. unfold_monad. cbn. rewrite Hcl. cbn.
  by destruct (cl ctx (val c) (world rt)).1.
Qed.

Lemma closeAll_no_closer (ctx : Ctx) (es : list (string * (string * connection)))
    (errs : list error) (rt : runtime) :
  closer (mgr rt) = None → closeAll ctx es errs rt = (errs, rt).
Proof.
  intros Hcl. unfold closeAll. induction es as [|[gn [n c]] es IH]; [done|].
  cbn [forRange fst snd]. unfold bind at 1. cbn [fst snd].
  by rewrite closeConn_no_closer.
Qed.

Lemma closeAll_closer (cl : Closer) (ctx : Ctx)
    (es : list (string * (string * connection))) (errs : list error) (rt : runtime) :
  closer (mgr rt) = Some cl →
  let recs := readyOnly es in
  let t := teardown cl ctx ((λ e, val e.2.2) <$> recs) (world rt) in
  let r := closeAll ctx es errs rt in
  mgr r.2 = mgr rt ∧
  world r.2 = t.2 ∧
  calls r.2 = calls rt ++ closerCalls ctx recs t.1 ∧
  next rt ≤ next r.2 ∧
  ∃ new_errs, r.1 = errs ++ new_errs ∧
    Forall2 closeFailureOf new_errs (failures (zip recs t.1)).
Proof.
  cbn zeta. unfold closeAll, readyOnly, failures, closerCalls.
  revert errs rt. induction es as [|[gn [n c]] es IH]; intros errs rt Hcl.
  { cbn. split_and!; try done; [by rewrite app_nil_r|].
    exists []. by rewrite app_nil_r. }
  cbn [forRange fst snd]. unfold bind at 1 2 3 4 5. cbn [fst snd].
  destruct (ready c) eqn:Hr.
  - rewrite filter_cons_True by done.
    cbn [fmap list_fmap teardown zip_with zip fst snd].
    rewrite (closeConn_ready cl) by done. cbn zeta.
    unfold callCloser. cbn [fst snd].
    set (res := cl ctx (val c) (world rt)).
    set (rt1 := mkRuntime (mgr rt) res.2
                  (calls rt ++ [CloserCall ctx (val c) res.1]) (next rt)).
    destruct res.1 as [e|] eqn:Hres.
    + set (built := NewErrCloseResourceFailed gn n (Some e) rt1).
      assert (mgr built.2 = mgr rt ∧ world built.2 = res.2 ∧
              calls built.2 = calls rt ++ [CloserCall ctx (val c) (Some e)] ∧
              next built.2 = S (next rt)) as (Hm & Hw & Hc & Hx) by done.
      cbn [fst snd].
      destruct (IH (errs ++ [built.1]) built.2)
        as (Hm' & Hw' & Hc' & Hx' & new_errs & He & Hf); [by rewrite Hm|].
      rewrite Hw in Hw', Hc', Hf. rewrite Hc in Hc'. rewrite Hx in Hx'.
      split_and!; try congruence; try lia.
      * rewrite Hc', <- app_assoc. done.
      * exists (built.1 :: new_errs). rewrite He, <- app_assoc. split; [done|].
        rewrite filter_cons_True by (cbn; eauto). constructor; [|done].
        by exists rt1.
    + cbn [fst snd].
      destruct (IH errs rt1) as (Hm' & Hw' & Hc' & Hx' & new_errs & He & Hf);
        [done|].
      subst rt1. cbn [mgr world calls next] in *. try rewrite Hres in Hc'.
      split_and!; try done.
      * rewrite Hc', <- app_assoc. done.
      * exists new_errs. split; [done|].
        rewrite filter_cons_False by (cbn; by intros [? [=]]). done.
  - rewrite filter_cons_False by (cbn; congruence).
    rewrite closeConn_unready by done. by apply IH.
Qed.

Lemma forRange_ext {A S : Type} (l : list A) (body1 body2 : S → A → M S)
    (acc : S) (rt : runtime) :
  (∀ a x rt', body1 a x rt' = body2 a x rt') →
  forRange l body1 acc rt = forRange l body2 acc rt.
Proof.
  intros Hb. revert acc rt. induction l as [|x l IH]; intros acc rt; [done|].
  cbn [forRange]. unfold bind. rewrite Hb. apply IH.
Qed.

Lemma group_loop_closeAll (ctx : Ctx) (gn : string) (gm : gmap string connection)
    (errs : list error) (rt : runtime) :
  forRange (range _ gm) (closeConn ctx gn) errs rt =
    closeAll ctx (groupEntries gn gm) errs rt.
Proof. unfold closeAll, groupEntries. by rewrite forRange_fmap. Qed.

Lemma manager_loop_closeAll (ctx : Ctx) (gs : gmap string (gmap string connection))
    (errs : list error) (rt : runtime) :
  forRange (range _ gs)
    (λ errs entry, forRange (range _ entry.2) (closeConn ctx entry.1) errs) errs rt =
    closeAll ctx (entries gs) errs rt.
Proof.
  unfold closeAll, entries. rewrite <- forRange_nested.
  apply forRange_ext. intros a [gn gm] rt'. apply group_loop_closeAll.
Qed.

Lemma teardown_length (cl : Closer) (ctx : Ctx) (ts : list T) (w : W) :
  length (teardown cl ctx ts w).1 = length ts.
Proof. revert w. induction ts as [|t ts IH]; intros w; cbn; [done|]. by rewrite IH. Qed.

Lemma closeFailureOf_Is (err : error) (x : (string * (string * connection)) * error) :
  closeFailureOf err x → errors_Is err (Some ErrCloseResourceFailed) = true.
Proof. intros [rt0 ->]. done. Qed.

Lemma manager_Close_eq (ctx : Ctx) (rt : runtime) :
  manager_Close ctx rt =
    ((closeAll ctx (entries (groups (mgr rt))) [] rt).1,
     withGroups ∅ (closeAll ctx (entries (groups (mgr rt))) [] rt).2).
Proof.
  unfold manager_Close, bind, getGroups, setGroups, ret. cbn [fst snd].
  by rewrite manager_loop_closeAll.
Qed.

Lemma group_Close_eq (g : group) (ctx : Ctx) (rt : runtime) :
  group_Close g ctx rt =
    match groups (mgr rt) !! name g with
    | None => ([], rt)
    | Some gm =>
        let r := closeAll ctx (groupEntries (name g) gm) [] rt in
        (r.1, withGroups (delete (name g) (groups (mgr r.2))) r.2)
    end.
Proof.
  unfold group_Close, bind, getGroups, setGroups, ret. cbn [fst snd].
  destruct (groups (mgr rt) !! name g) as [gm|]; [|done].
  by rewrite group_loop_closeAll.
Qed.

(** What [range] visits, given that it visits each entry of the map once. *)
Section RangeOrder.
Hypothesis range_perm : ∀ (A : Type) (m : gmap string A), range A m ≡ₚ map_to_list m.

Lemma elem_of_range {A : Type} (m : gmap string A) (k : string) (a : A) :
  (k, a) ∈ range A m ↔ m !! k = Some a.
Proof using range_perm. by rewrite range_perm, elem_of_map_to_list. Qed.

Lemma NoDup_range_fst {A : Type} (m : gmap string A) : NoDup (range A m).*1.
Proof using range_perm. rewrite range_perm. apply NoDup_fst_map_to_list. Qed.

Lemma NoDup_range {A : Type} (m : gmap string A) : NoDup (range A m).
Proof using range_perm. rewrite range_perm. apply NoDup_map_to_list. Qed.

Lemma elem_of_groupEntries (gn : string) (gm : gmap string connection)
    (x : string * (string * connection)) :
  x ∈ groupEntries gn gm ↔ x.1 = gn ∧ gm !! x.2.1 = Some x.2.2.
Proof using range_perm.
  unfold groupEntries. rewrite list_elem_of_fmap. split.
  - intros ([n c] & -> & Hin). by apply elem_of_range in Hin.
  - destruct x as [gn' [n c]]. cbn. intros [-> Hl].
    exists (n, c). split; [done|]. by apply elem_of_range.
Qed.

Lemma NoDup_groupEntries (gn : string) (gm : gmap string connection) :
  NoDup (groupEntries gn gm).
Proof using range_perm.
  unfold groupEntries. apply NoDup_fmap_2; [|apply NoDup_range].
  by intros ? ? [= ->].
Qed.

Lemma elem_of_entries (gs : gmap string (gmap string connection))
    (x : string * (string * connection)) :
  x ∈ entries gs ↔ gs !! x.1 ≫= (.!! x.2.1) = Some x.2.2.
Proof using range_perm.
  unfold entries. rewrite list_elem_of_bind. split.
  - intros ([gn gm] & Hx & Hin). apply elem_of_range in Hin.
    apply elem_of_groupEntries in Hx as [-> Hx]. cbn in *. by rewrite Hin.
  - destruct (gs !! x.1) as [gm|] eqn:Hg; cbn; [|done]. intros Hx.
    exists (x.1, gm). split; [by apply elem_of_groupEntries|by apply elem_of_range].
Qed.

Lemma NoDup_entries (gs : gmap string (gmap string connection)) :
  NoDup (entries gs).
Proof using range_perm.
  unfold entries. apply NoDup_bind; [| |apply NoDup_range].
  - intros [gn1 gm1] [gn2 gm2] x Hin1 Hin2 Hx1 Hx2.
    apply elem_of_groupEntries in Hx1 as [Hx1 _], Hx2 as [Hx2 _].
    apply elem_of_range in Hin1, Hin2. cbn in *. subst. congruence.
  - intros [gn gm] _. apply NoDup_groupEntries.
Qed.

End RangeOrder.

(** C4. Let [recs] be the records [Registry.Close] visits whose [ready]
    flag is set; they are exactly the ready records of the registry, each
    once.  [Close] leaves the manager as [New] builds it: no groups, the
    same callbacks.  Without a closer it returns no error and invokes
    nothing.  With a closer it invokes it on the cached value of each
    record of [recs] in turn, each invocation in the world the previous one
    left whether or not that one failed, and on nothing else; the errors it
    returns are, in order, one [NewErrCloseResourceFailed] error per failed
    invocation, built from that record's group name, resource name and
    failure, and each matches [ErrCloseResourceFailed]. *)
Theorem manager_Close_tears_down_ready (rt : runtime) (ctx : Ctx) :
  (∀ (A : Type) (m : gmap string A), range A m ≡ₚ map_to_list m) →
  let recs := readyOnly (entries (groups (mgr rt))) in
  let r := manager_Close ctx rt in
  NoDup recs ∧
  (∀ gn n c, (gn, (n, c)) ∈ recs ↔ record rt gn n = Some c ∧ ready c = true) ∧
  mgr r.2 = New (opener (mgr rt)) (closer (mgr rt)) ∧
  match closer (mgr rt) with
  | None => r.1 = [] ∧ calls r.2 = calls rt ∧ world r.2 = world rt
  | Some cl =>
      let t := teardown cl ctx ((λ e, val e.2.2) <$> recs) (world rt) in
      length t.1 = length recs ∧
      calls r.2 = calls rt ++ closerCalls ctx recs t.1 ∧
      world r.2 = t.2 ∧
      Forall2 closeFailureOf r.1 (failures (zip recs t.1)) ∧
      Forall (λ err, errors_Is err (Some ErrCloseResourceFailed) = true) r.1
  end.
Proof.
  intros Hrange. cbn zeta. split_and!.
  - apply NoDup_filter, NoDup_entries, Hrange.
  - intros gn n c. unfold readyOnly. rewrite list_elem_of_filter.
    rewrite elem_of_entries by done. unfold record. cbn. tauto.
  - rewrite manager_Close_eq. cbn [fst snd withGroups mgr].
    destruct (closer (mgr rt)) as [cl|] eqn:Hcl.
    + destruct (closeAll_closer cl ctx (entries (groups (mgr rt))) [] rt Hcl)
        as (Hm & _). by rewrite Hm, Hcl.
    + rewrite closeAll_no_closer by done. cbn [snd]. by rewrite Hcl.
  - rewrite manager_Close_eq. cbn [fst snd withGroups calls world].
    destruct (closer (mgr rt)) as [cl|] eqn:Hcl.
    + destruct (closeAll_closer cl ctx (entries (groups (mgr rt))) [] rt Hcl)
        as (Hm & Hw & Hc & _ & new_errs & He & Hf).
      rewrite teardown_length, length_fmap.
      split_and!; try done.
      * by rewrite He.
      * rewrite He. cbn. eapply Forall2_Forall_l; [done|].
        apply Forall_forall. intros x _ err. apply closeFailureOf_Is.
    + rewrite closeAll_no_closer by done. done.
Qed.

(** C6. [Group.Close] on a handle whose group is gone returns no error and
    leaves the whole state as it is.  Otherwise let [recs] be the records
    it visits whose [ready] flag is set: exactly the ready records of that
    group, each once.  [Close] removes the group, and every other group is
    as before with all its records.  Without a closer nothing is invoked;
    with a closer it is invoked on the cached value of each record of
    [recs] in turn, continuing past failures, and on nothing else, and the
    errors returned are, in order, one [NewErrCloseResourceFailed] error
    per failed invocation. *)
Theorem group_Close_only_its_group (rt : runtime) (g : group) (ctx : Ctx) :
  (∀ (A : Type) (m : gmap string A), range A m ≡ₚ map_to_list m) →
  let r := group_Close g ctx rt in
  match groups (mgr rt) !! name g with
  | None => r = ([], rt)
  | Some gm =>
      let recs := readyOnly (groupEntries (name g) gm) in
      NoDup recs ∧
      (∀ gn n c, (gn, (n, c)) ∈ recs ↔
         gn = name g ∧ gm !! n = Some c ∧ ready c = true) ∧
      groups (mgr r.2) = delete (name g) (groups (mgr rt)) ∧
      groups (mgr r.2) !! name g = None ∧
      (∀ gn, gn ≠ name g → groups (mgr r.2) !! gn = groups (mgr rt) !! gn) ∧
      opener (mgr r.2) = opener (mgr rt) ∧ closer (mgr r.2) = closer (mgr rt) ∧
      match closer (mgr rt) with
      | None => r.1 = [] ∧ calls r.2 = calls rt ∧ world r.2 = world rt
      | Some cl =>
          let t := teardown cl ctx ((λ e, val e.2.2) <$> recs) (world rt) in
          length t.1 = length recs ∧
          calls r.2 = calls rt ++ closerCalls ctx recs t.1 ∧
          world r.2 = t.2 ∧
          Forall2 closeFailureOf r.1 (failures (zip recs t.1)) ∧
          Forall (λ err, errors_Is err (Some ErrCloseResourceFailed) = true) r.1
      end
  end.
Proof.
  intros Hrange. cbn zeta. rewrite group_Close_eq.
  destruct (groups (mgr rt) !! name g) as [gm|] eqn:Hg; [|done]. cbn zeta.
  assert (Hrecs : ∀ gn n c, (gn, (n, c)) ∈ readyOnly (groupEntries (name g) gm) ↔
            gn = name g ∧ gm !! n = Some c ∧ ready c = true).
  { intros gn n c. unfold readyOnly. rewrite list_elem_of_filter.
    rewrite elem_of_groupEntries by done. cbn. tauto. }
  assert (Hnodup : NoDup (readyOnly (groupEntries (name g) gm))).
  { apply NoDup_filter, NoDup_groupEntries, Hrange. }
  destruct (closer (mgr rt)) as [cl|] eqn:Hcl.
  - destruct (closeAll_closer cl ctx (groupEntries (name g) gm) [] rt Hcl)
      as (Hm & Hw & Hc & _ & new_errs & He & Hf).
    cbn [fst snd withGroups mgr groups opener closer calls world].
    rewrite Hm, ?Hcl, teardown_length, length_fmap.
    split_and!; try done.
    + apply lookup_delete_eq.
    + intros gn Hgn. by apply lookup_delete_ne.
    + by rewrite He.
    + rewrite He. cbn. eapply Forall2_Forall_l; [done|].
      apply Forall_forall. intros x _ err. apply closeFailureOf_Is.
  - rewrite closeAll_no_closer by done.
    cbn [withGroups mgr groups opener closer calls world fst snd].
    split_and!; try done.
    + apply lookup_delete_eq.
    + intros gn Hgn. by apply lookup_delete_ne.
Qed.

(** *** The error constructors *)

(** C8. Whatever the names, the cause and the state of the allocator, the
    error each constructor builds matches its own sentinel under
    [errors.Is], and the error [NewErrCloseResourceFailed] builds around a
    closer's error also matches that error itself. *)
Theorem sentinels_stay_matchable (rt : runtime) (groupName resourceName : string)
    (cause : error) (err : errorValue) :
  errors_Is (NewErrGroupNotFound groupName rt).1 (Some ErrGroupNotFound) = true ∧
  errors_Is (NewErrResourceNotFound groupName resourceName rt).1
    (Some ErrResourceNotFound) = true ∧
  errors_Is (NewErrCloseResourceFailed groupName resourceName cause rt).1
    (Some ErrCloseResourceFailed) = true ∧
  errors_Is (NewErrPingResourceFailed groupName resourceName cause rt).1
    (Some ErrPingResourceFailed) = true ∧
  errors_Is (NewErrCloseResourceFailed groupName resourceName (Some err) rt).1
    (Some err) = true.
Proof.
  split_and!; try done.
  unfold NewErrCloseResourceFailed. unfold_monad. cbn [fst snd errors_Is omap list_omap id].
  rewrite is_unfold. cbn [existsb]. rewrite is_refl.
  by rewrite !orb_true_r.
Qed.

(** C9, amended. For a callback error [err] that was allocated before the
    call and is not the sentinel [ErrPingResourceFailed] itself, the error
    [NewErrPingResourceFailed] builds matches the sentinel but does not
    match [err], whereas the error [NewErrCloseResourceFailed] builds from
    the same [err] does match it. *)
Theorem Ping_error_drops_cause (rt : runtime) (groupName resourceName : string)
    (err : errorValue) :
  err ≠ ErrPingResourceFailed →
  addr_of err < next rt →
  errors_Is (NewErrPingResourceFailed groupName resourceName (Some err) rt).1
    (Some ErrPingResourceFailed) = true ∧
  errors_Is (NewErrPingResourceFailed groupName resourceName (Some err) rt).1
    (Some err) = false ∧
  errors_Is (NewErrCloseResourceFailed groupName resourceName (Some err) rt).1
    (Some err) = true.
Proof.
  intros Hne Hold. split; [done|]. split.
  - unfold NewErrPingResourceFailed. unfold_monad. cbn [fst snd errors_Is].
    rewrite is_unfold, (is_unfold ErrPingResourceFailed). cbn [ErrPingResourceFailed].
    rewrite !orb_false_r. apply orb_false_iff. split.
    + apply not_true_is_false. intros H%errorValue_eqb_eq. subst err.
      cbn in Hold. lia.
    + apply not_true_is_false. intros H%errorValue_eqb_eq. by subst err.
  - unfold NewErrCloseResourceFailed. unfold_monad.
    cbn [fst snd errors_Is omap list_omap id].
    rewrite is_unfold. cbn [existsb]. rewrite is_refl.
    by rewrite !orb_true_r.
Qed.

(** ** Further properties of the registry *)

(** *** Get *)

Lemma group_Get_no_group (rt : runtime) (g : group) (ctx : Ctx) (rname : string) :
  groups (mgr rt) !! name g = None →
  group_Get g ctx rname rt =
    ((zero, (NewErrGroupNotFound (name g) rt).1), (NewErrGroupNotFound (name g) rt).2).
Proof.
  intros Hg. unfold group_Get. unfold bind at 1. cbn [getGroups fst snd].
  rewrite Hg. done.
Qed.

Lemma group_Get_no_record (rt : runtime) (g : group) (ctx : Ctx) (rname : string)
    (gm : gmap string connection) :
  groups (mgr rt) !! name g = Some gm →
  gm !! rname = None →
  group_Get g ctx rname rt =
    ((zero, (NewErrResourceNotFound (name g) rname rt).1),
     (NewErrResourceNotFound (name g) rname rt).2).
Proof.
  intros Hg Hn. unfold group_Get. unfold bind at 1. cbn [getGroups fst snd].
  rewrite Hg, Hn. done.
Qed.

(** X1. [Get] for a name without a record returns the zero value, invokes
    no callback and leaves the manager as it is.  Its error matches
    [ErrGroupNotFound] exactly when the handle's group is absent and
    [ErrResourceNotFound] exactly when the group is there. *)
Theorem Get_not_found (rt : runtime) (g : group) (ctx : Ctx) (rname : string) :
  record rt (name g) rname = None →
  let r := group_Get g ctx rname rt in
  r.1.1 = zero ∧
  mgr r.2 = mgr rt ∧ calls r.2 = calls rt ∧ world r.2 = world rt ∧
  (errors_Is r.1.2 (Some ErrGroupNotFound) = true ↔
     groups (mgr rt) !! name g = None) ∧
  (errors_Is r.1.2 (Some ErrResourceNotFound) = true ↔
     is_Some (groups (mgr rt) !! name g)).
Proof.
  unfold record. intros Hrec. cbn zeta.
  destruct (groups (mgr rt) !! name g) as [gm|] eqn:Hg; cbn in Hrec.
  - rewrite (group_Get_no_record rt g ctx rname gm) by done.
    split_and!; done.
  - rewrite group_Get_no_group by done. split_and!; done.
Qed.

(** X2. Once a [Get] has returned without error, the next [Get] for the
    same name returns the same value, again without error, and has no
    effect at all: no callback runs and nothing is stored. *)
Theorem Get_again_is_cached (rt : runtime) (g : group) (ctx ctx' : Ctx)
    (rname : string) :
  (group_Get g ctx rname rt).1.2 = None →
  group_Get g ctx' rname (group_Get g ctx rname rt).2 =
    (((group_Get g ctx rname rt).1.1, None), (group_Get g ctx rname rt).2).
Proof.
  destruct (groups (mgr rt) !! name g) as [gm|] eqn:Hg.
  2: { by rewrite group_Get_no_group. }
  destruct (gm !! rname) as [conn|] eqn:Hn.
  2: { by rewrite (group_Get_no_record rt g ctx rname gm). }
  rewrite (group_Get_registered rt g ctx rname gm conn Hg Hn).
  destruct (ready conn) eqn:Hr.
  - intros _. cbn [fst snd].
    rewrite (group_Get_registered rt g ctx' rname gm conn Hg Hn). by rewrite Hr.
  - cbn zeta.
    destruct (opener (mgr rt) ctx (cfg conn) (world rt)) as [[v [e|]] w] eqn:Ho;
      cbn [fst snd]; [done|]. intros _.
    erewrite group_Get_registered.
    2: { cbn. apply lookup_insert_eq. }
    2: { apply lookup_insert_eq. }
    done.
Qed.

(** X3. After [Register] has stored a configuration under a name that had
    no record (the group may even be absent), the next [Get] for the name
    invokes the opener exactly once, on that configuration, and returns
    what the opener returned: its value when it succeeds, the zero value
    and its error when it fails. *)
Theorem Register_then_Get (rt : runtime) (g : group) (ctx ctx' : Ctx)
    (rname : string) (c : C) :
  record rt (name g) rname = None →
  let registered := (group_Register g ctx rname c rt).2 in
  let o := opener (mgr rt) ctx' c (world rt) in
  let r := group_Get g ctx' rname registered in
  calls r.2 = calls rt ++ [OpenerCall ctx' c o.1] ∧
  world r.2 = o.2 ∧
  r.1 = match o.1.2 with
        | None => (o.1.1, None)
        | Some e => (zero, Some e)
        end ∧
  (o.1.2 = None → record r.2 (name g) rname = Some (mkConnection c o.1.1 true)).
Proof.
  intros Hrec. cbn zeta.
  destruct (group_Register_record rt g ctx rname c) as (Hreg & Hc & Hw & Ho).
  rewrite Hrec in Hreg. cbn in Hreg. unfold record in Hreg.
  destruct (groups (mgr (group_Register g ctx rname c rt).2) !! name g)
    as [gm|] eqn:Hg; [|done]. cbn in Hreg.
  rewrite (group_Get_registered _ g ctx' rname gm _ Hg Hreg).
  cbn [ready cfg]. cbn zeta. unfold afterOpener, callOpener. cbn [fst snd].
  rewrite Ho, Hw, Hc.
  destruct (opener (mgr rt) ctx' c (world rt)) as [[v [e|]] w]; cbn; [done|].
  split_and!; try done. intros _. unfold record. cbn.
  rewrite lookup_insert_eq. cbn. apply lookup_insert_eq.
Qed.

(** X4. [Get] touches one record only.  Every other record, in any group,
    is as before; no record appears or disappears; the record asked for
    keeps its configuration, is left exactly as it was if it was ready or
    is still unready afterwards; the two callbacks of the manager stay the
    same; and whatever [Get] adds to the call log is an opener call, never
    a closer call. *)
Theorem Get_touches_one_record (rt : runtime) (g : group) (ctx : Ctx)
    (rname : string) :
  let r := group_Get g ctx rname rt in
  (∀ gn n, (gn, n) ≠ (name g, rname) → record r.2 gn n = record rt gn n) ∧
  (record rt (name g) rname = None → record r.2 (name g) rname = None) ∧
  (∀ c, record rt (name g) rname = Some c →
     ∃ c', record r.2 (name g) rname = Some c' ∧ cfg c' = cfg c ∧
           (ready c = true → c' = c) ∧ (ready c' = false → c' = c)) ∧
  opener (mgr r.2) = opener (mgr rt) ∧ closer (mgr r.2) = closer (mgr rt) ∧
  ∃ l, calls r.2 = calls rt ++ l ∧ Forall isOpenerCall l.
Proof.
  cbn zeta. unfold record.
  destruct (groups (mgr rt) !! name g) as [gm|] eqn:Hg.
  2: { rewrite group_Get_no_group by done. cbn. rewrite Hg.
       split_and!; try done. exists []. by rewrite app_nil_r. }
  destruct (gm !! rname) as [conn|] eqn:Hn.
  2: { rewrite (group_Get_no_record rt g ctx rname gm) by done. cbn. rewrite Hg. cbn.
       split_and!; try done; [intros; congruence|].
       exists []. by rewrite app_nil_r. }
  rewrite (group_Get_registered rt g ctx rname gm conn Hg Hn).
  assert (Hsame : ∀ c, Some conn = Some c →
            ∃ c', Some conn = Some c' ∧ cfg c' = cfg c ∧
                  (ready c = true → c' = c) ∧ (ready c' = false → c' = c)).
  { intros c [= <-]. by exists conn. }
  destruct (ready conn) eqn:Hr.
  { cbn. rewrite Hg. cbn. rewrite Hn.
    split_and!; try done. exists []. by rewrite app_nil_r. }
  cbn zeta. unfold afterOpener, callOpener.
  destruct (opener (mgr rt) ctx (cfg conn) (world rt)) as [[v [e|]] w] eqn:Ho;
    cbn [fst snd withGroups mgr groups opener closer calls].
  - rewrite Hg. cbn. rewrite Hn. split_and!; try done.
    eexists [_]. split; [done|]. by repeat constructor.
  - split_and!; try done.
    + intros gn n Hne. destruct (decide (gn = name g)) as [->|Hgn].
      * rewrite lookup_insert_eq, Hg. cbn.
        rewrite lookup_insert_ne; [done|congruence].
      * by rewrite lookup_insert_ne.
    + cbn. by rewrite Hn.
    + intros c. cbn. rewrite Hn. intros [= <-]. rewrite lookup_insert_eq. cbn.
      rewrite lookup_insert_eq.
      eexists. split; [done|]. cbn. split_and!; [done|congruence|done].
    + eexists [_]. split; [done|]. by repeat constructor.
Qed.

(** *** Unregister *)

Lemma group_Unregister_registered (rt : runtime) (g : group) (ctx : Ctx)
    (rname : string) (gm : gmap string connection) (conn : connection) :
  groups (mgr rt) !! name g = Some gm →
  gm !! rname = Some conn →
  group_Unregister g ctx rname rt =
    (None,
     withGroups (<[name g := delete rname gm]> (groups (mgr rt)))
       match ready conn, closer (mgr rt) with
       | true, Some cl => (callCloser cl ctx (val conn) rt).2
       | _, _ => rt
       end).
Proof.
  intros Hg Hn. unfold group_Unregister. unfold_monad. cbn. rewrite Hg; cbn.
  rewrite Hn; cbn. by destruct (ready conn), (closer (mgr rt)).
Qed.

Lemma group_Unregister_groups (rt : runtime) (g : group) (ctx : Ctx)
    (rname : string) :
  groups (mgr (group_Unregister g ctx rname rt).2) =
    match groups (mgr rt) !! name g with
    | Some gm => <[name g := delete rname gm]> (groups (mgr rt))
    | None => groups (mgr rt)
    end.
Proof.
  destruct (groups (mgr rt) !! name g) as [gm|] eqn:Hg.
  - destruct (gm !! rname) as [conn|] eqn:Hn.
    + by rewrite (group_Unregister_registered rt g ctx rname gm conn).
    + unfold group_Unregister. unfold_monad. cbn. rewrite Hg; cbn. rewrite Hn; cbn.
      rewrite delete_id by done. by rewrite insert_id.
  - unfold group_Unregister. unfold_monad. cbn. by rewrite Hg.
Qed.

(** X5. After [Unregister] has removed a registered name, [Get] for it
    fails with an error matching [ErrResourceNotFound] without invoking the
    opener, and [Register] accepts the name as new, storing the new
    configuration in an unready record that holds the zero value. *)
Theorem Unregister_then_Get_Register (rt : runtime) (g : group) (ctx ctx' : Ctx)
    (rname : string) (c : C) (gm : gmap string connection) (conn : connection) :
  groups (mgr rt) !! name g = Some gm →
  gm !! rname = Some conn →
  let gone := (group_Unregister g ctx rname rt).2 in
  errors_Is (group_Get g ctx' rname gone).1.2 (Some ErrResourceNotFound) = true ∧
  calls (group_Get g ctx' rname gone).2 = calls gone ∧
  (group_Register g ctx' rname c gone).1 = (true, None) ∧
  record (group_Register g ctx' rname c gone).2 (name g) rname =
    Some (mkConnection c zero false).
Proof.
  intros Hg Hn. cbn zeta.
  pose proof (group_Unregister_groups rt g ctx rname) as Hgs. rewrite Hg in Hgs.
  remember (group_Unregister g ctx rname rt).2 as gone eqn:Heq. clear Heq.
  assert (Hg' : groups (mgr gone) !! name g = Some (delete rname gm))
    by (rewrite Hgs; apply lookup_insert_eq).
  rewrite (group_Get_no_record gone g ctx' rname (delete rname gm))
    by (done || apply lookup_delete_eq).
  split_and!; try done.
  - unfold group_Register. unfold_monad. cbn. rewrite Hg'. cbn.
    by rewrite lookup_delete_eq.
  - destruct (group_Register_record gone g ctx' rname c) as (Hreg & _).
    rewrite Hreg. unfold record. rewrite Hg'. cbn. by rewrite lookup_delete_eq.
Qed.

(** X6. [Unregister] removes at most the one record: every other record, in
    the same or any other group, is as before, and no group appears or
    disappears, so a group emptied by [Unregister] stays in the registry.
    On a handle whose group is absent it returns an error matching
    [ErrGroupNotFound] and invokes no callback. *)
Theorem Unregister_touches_one_record (rt : runtime) (g : group) (ctx : Ctx)
    (rname : string) :
  let r := group_Unregister g ctx rname rt in
  (∀ gn n, (gn, n) ≠ (name g, rname) → record r.2 gn n = record rt gn n) ∧
  (∀ gn, is_Some (groups (mgr r.2) !! gn) ↔ is_Some (groups (mgr rt) !! gn)) ∧
  (groups (mgr rt) !! name g = None →
     errors_Is r.1 (Some ErrGroupNotFound) = true ∧
     mgr r.2 = mgr rt ∧ calls r.2 = calls rt ∧ world r.2 = world rt).
Proof.
  cbn zeta. unfold record. rewrite group_Unregister_groups.
  destruct (groups (mgr rt) !! name g) as [gm|] eqn:Hg.
  - split_and!; [| |done].
    + intros gn n Hne. destruct (decide (gn = name g)) as [->|Hgn].
      * rewrite lookup_insert_eq, Hg. cbn.
        rewrite lookup_delete_ne; [done|congruence].
      * by rewrite lookup_insert_ne.
    + intros gn. destruct (decide (gn = name g)) as [->|Hgn].
      * rewrite lookup_insert_eq, Hg. split; eauto.
      * by rewrite lookup_insert_ne.
  - split_and!; try done. intros _.
    unfold group_Unregister. unfold_monad. cbn. by rewrite Hg.
Qed.

(** *** AddGroup *)

(** X7. [AddGroup] never changes a record: every record of every group,
    the added one included, is as before; it invokes no callback; and the
    groups afterwards are those before together with the added name. *)
Theorem AddGroup_keeps_records (rt : runtime) (n : string) :
  let r := manager_AddGroup n rt in
  (∀ gn rn, record r.2 gn rn = record rt gn rn) ∧
  (∀ gn, is_Some (groups (mgr r.2) !! gn) ↔
           gn = n ∨ is_Some (groups (mgr rt) !! gn)) ∧
  (r.1 = true ↔ is_Some (groups (mgr rt) !! n)) ∧
  calls r.2 = calls rt ∧ world r.2 = world rt.
Proof.
  cbn zeta. unfold manager_AddGroup, record. unfold_monad. cbn.
  destruct (groups (mgr rt) !! n) as [gm|] eqn:Hg; cbn.
  - split_and!; try done.
    intros gn. split; [eauto|]. intros [->|]; [|done]. rewrite Hg. eauto.
  - split_and!; try done.
    + intros gn rn. destruct (decide (gn = n)) as [->|Hgn].
      * rewrite lookup_insert_eq, Hg. cbn. by rewrite lookup_empty.
      * by rewrite lookup_insert_ne.
    + intros gn. destruct (decide (gn = n)) as [->|Hgn].
      * rewrite lookup_insert_eq. split; eauto.
      * rewrite lookup_insert_ne by done. split; [eauto|]. by intros [->|].
Qed.

(** *** List and ListGroupNames *)

(** X8. Given that [range] visits each entry of a map once, [List] returns
    each registered name of the handle's group exactly once and nothing
    else, as many names as the group has records; it returns the empty
    list when the group is absent; and it leaves the state as it is. *)
Theorem List_lists_registered (rt : runtime) (g : group) :
  (∀ (A : Type) (m : gmap string A), range A m ≡ₚ map_to_list m) →
  let r := group_List g rt in
  r.2 = rt ∧
  NoDup r.1 ∧
  (∀ n, n ∈ r.1 ↔ is_Some (record rt (name g) n)) ∧
  length r.1 = from_option size 0 (groups (mgr rt) !! name g).
Proof.
  intros Hrange. cbn zeta. unfold group_List, record. unfold_monad. cbn.
  destruct (groups (mgr rt) !! name g) as [gm|] eqn:Hg; cbn.
  - split_and!; try done.
    + by apply NoDup_range_fst.
    + intros n. rewrite list_elem_of_fmap. split.
      * intros ([n' c] & -> & Hin). apply elem_of_range in Hin; eauto.
      * intros [c Hc]. exists (n, c). split; [done|]. by apply elem_of_range.
    + by rewrite length_fmap, Hrange, length_map_to_list.
  - split_and!; try done; [constructor|].
    intros n. split; [by intros ?%elem_of_nil|by intros [? [=]]].
Qed.

(** X9. Given that [range] visits each entry of a map once,
    [ListGroupNames] returns the name of each group of the registry
    exactly once and nothing else, and leaves the state as it is. *)
Theorem ListGroupNames_lists_groups (rt : runtime) :
  (∀ (A : Type) (m : gmap string A), range A m ≡ₚ map_to_list m) →
  let r := manager_ListGroupNames rt in
  r.2 = rt ∧
  NoDup r.1 ∧
  (∀ gn, gn ∈ r.1 ↔ is_Some (groups (mgr rt) !! gn)) ∧
  length r.1 = size (groups (mgr rt)).
Proof.
  intros Hrange. cbn zeta. unfold manager_ListGroupNames. unfold_monad. cbn.
  split_and!; try done.
  - by apply NoDup_range_fst.
  - intros gn. rewrite list_elem_of_fmap. split.
    + intros ([gn' gm] & -> & Hin). apply elem_of_range in Hin; eauto.
    + intros [gm Hgm]. exists (gn, gm). split; [done|]. by apply elem_of_range.
  - by rewrite length_fmap, Hrange, length_map_to_list.
Qed.

(** *** After Close *)

Lemma closeAll_mgr (ctx : Ctx) (es : list (string * (string * connection)))
    (errs : list error) (rt : runtime) :
  mgr (closeAll ctx es errs rt).2 = mgr rt.
Proof.
  destruct (closer (mgr rt)) as [cl|] eqn:Hcl.
  - by destruct (closeAll_closer cl ctx es errs rt Hcl) as (Hm & _).
  - by rewrite closeAll_no_closer.
Qed.

Lemma manager_Close_groups (ctx : Ctx) (rt : runtime) :
  groups (mgr (manager_Close ctx rt).2) = ∅.
Proof. by rewrite manager_Close_eq. Qed.

Lemma group_Close_groups (g : group) (ctx : Ctx) (rt : runtime) :
  groups (mgr (group_Close g ctx rt).2) = delete (name g) (groups (mgr rt)).
Proof.
  rewrite group_Close_eq.
  destruct (groups (mgr rt) !! name g) as [gm|] eqn:Hg.
  - cbn. by rewrite closeAll_mgr.
  - cbn. by rewrite delete_id.
Qed.

Lemma range_empty (A : Type) :
  (∀ (A : Type) (m : gmap string A), range A m ≡ₚ map_to_list m) →
  range A ∅ = [].
Proof.
  intros Hrange. apply Permutation_nil_r. by rewrite Hrange, map_to_list_empty.
Qed.

(** X10. After [Registry.Close], whatever the closer did: no group name is
    listed; [Group] fails for every name with an error matching
    [ErrGroupNotFound]; [Get] through any handle fails with such an error
    without invoking the opener; and a second [Close] returns no error and
    changes nothing, so no closer is invoked twice. *)
Theorem after_manager_Close (rt : runtime) (ctx ctx' : Ctx) :
  (∀ (A : Type) (m : gmap string A), range A m ≡ₚ map_to_list m) →
  let closed := (manager_Close ctx rt).2 in
  (manager_ListGroupNames closed).1 = [] ∧
  (∀ gn, (manager_Group gn closed).1.1 = None ∧
         errors_Is (manager_Group gn closed).1.2 (Some ErrGroupNotFound) = true) ∧
  (∀ g rname,
     errors_Is (group_Get g ctx' rname closed).1.2 (Some ErrGroupNotFound) = true ∧
     calls (group_Get g ctx' rname closed).2 = calls closed) ∧
  manager_Close ctx' closed = ([], closed).
Proof.
  intros Hrange. cbn zeta.
  pose proof (manager_Close_groups ctx rt) as Hgs.
  remember (manager_Close ctx rt).2 as closed eqn:Heq. clear Heq.
  split_and!.
  - unfold manager_ListGroupNames. unfold_monad. cbn.
    by rewrite Hgs, range_empty.
  - intros gn. unfold manager_Group. unfold_monad. cbn.
    by rewrite Hgs, lookup_empty.
  - intros g rname. rewrite group_Get_no_group by (by rewrite Hgs, lookup_empty).
    done.
  - rewrite manager_Close_eq. unfold entries. rewrite Hgs, range_empty by done.
    cbn. by rewrite <- Hgs, withGroups_id.
Qed.

(** X11. After [Group.Close] the handle is stale: [Get] and [Unregister]
    through it fail with an error matching [ErrGroupNotFound], [List]
    returns nothing, the group's name is no longer listed and a second
    [Close] returns no error and changes nothing.  [Register] through the
    stale handle starts the group afresh: it holds the new record, unready,
    and none of the records it held before. *)
Theorem after_group_Close (rt : runtime) (g : group) (ctx ctx' : Ctx)
    (rname : string) (c : C) :
  (∀ (A : Type) (m : gmap string A), range A m ≡ₚ map_to_list m) →
  let closed := (group_Close g ctx rt).2 in
  errors_Is (group_Get g ctx' rname closed).1.2 (Some ErrGroupNotFound) = true ∧
  errors_Is (group_Unregister g ctx' rname closed).1 (Some ErrGroupNotFound) = true ∧
  (group_List g closed).1 = [] ∧
  (name g ∉ (manager_ListGroupNames closed).1) ∧
  group_Close g ctx' closed = ([], closed) ∧
  (∀ n, record (group_Register g ctx' rname c closed).2 (name g) n =
          if decide (n = rname) then Some (mkConnection c zero false) else None).
Proof.
  intros Hrange. cbn zeta.
  pose proof (group_Close_groups g ctx rt) as Hgs.
  remember (group_Close g ctx rt).2 as closed eqn:Heq. clear Heq.
  assert (Hg : groups (mgr closed) !! name g = None)
    by (rewrite Hgs; apply lookup_delete_eq).
  split_and!.
  - by rewrite group_Get_no_group.
  - unfold group_Unregister. unfold_monad. cbn. by rewrite Hg.
  - unfold group_List. unfold_monad. cbn. by rewrite Hg.
  - unfold manager_ListGroupNames. unfold_monad. cbn.
    rewrite list_elem_of_fmap. intros ([gn gm] & Hgn & Hin).
    apply elem_of_range in Hin; [|done]. cbn in Hgn. congruence.
  - rewrite group_Close_eq. by rewrite Hg.
  - intros n. unfold group_Register, record. unfold_monad. cbn. rewrite Hg. cbn.
    rewrite lookup_empty. cbn. rewrite lookup_insert_eq. cbn.
    case_decide as Hn; [subst; apply lookup_insert_eq|].
    rewrite lookup_insert_ne by done. apply lookup_empty.
Qed.

(** *** NewGroup *)

(** X12. [NewGroup] builds what [New], then [AddGroup] of the default group
    name, then [Group] of that name build: the same manager and the same
    handle, the added group being new and the lookup succeeding. *)
Theorem NewGroup_is_New_AddGroup_Group (rt : runtime) (op : Opener)
    (cl : option Closer) :
  mgr rt = New op cl →
  let added := manager_AddGroup defaultGroupName rt in
  let found := manager_Group defaultGroupName added.2 in
  added.1 = false ∧
  found.1 = (Some (NewGroup op cl).2, None) ∧
  mgr found.2 = (NewGroup op cl).1.
Proof.
  intros Hm. cbn zeta. unfold manager_AddGroup, manager_Group, NewGroup.
  unfold_monad. cbn. rewrite Hm. cbn. rewrite lookup_empty. cbn.
  rewrite lookup_insert_eq. cbn. by rewrite Hm.
Qed.

(** *** MustGroup and MustGet *)

(** X13. [MustGet] leaves the state as [Get] does.  It returns exactly when
    the name has a record that is ready or whose opener call succeeds, and
    then returns [Get]'s value; otherwise it panics with [Get]'s error,
    which is the opener's own error when the record exists. *)
Theorem MustGet_panics_on_Get_error (rt : runtime) (g : group) (ctx : Ctx)
    (rname : string) :
  let r := group_MustGet g ctx rname rt in
  let o c := (opener (mgr rt) ctx (cfg c) (world rt)).1 in
  r.2 = (group_Get g ctx rname rt).2 ∧
  match r.1 with
  | Returns v =>
      (group_Get g ctx rname rt).1 = (v, None) ∧
      ∃ c, record rt (name g) rname = Some c ∧
           (ready c = true ∨ (o c).2 = None)
  | Panics e =>
      is_Some e ∧ (group_Get g ctx rname rt).1.2 = e ∧
      (record rt (name g) rname = None ∨
       ∃ c, record rt (name g) rname = Some c ∧ ready c = false ∧ (o c).2 = e)
  end.
Proof.
  cbn zeta. unfold group_MustGet, record. unfold bind, ret.
  destruct (groups (mgr rt) !! name g) as [gm|] eqn:Hg.
  2: { rewrite group_Get_no_group by done. cbn. eauto. }
  destruct (gm !! rname) as [conn|] eqn:Hn.
  2: { rewrite (group_Get_no_record rt g ctx rname gm) by done. cbn. eauto. }
  rewrite (group_Get_registered rt g ctx rname gm conn Hg Hn). cbn.
  destruct (ready conn) eqn:Hr; cbn.
  { rewrite Hn. split_and!; eauto. }
  destruct (opener (mgr rt) ctx (cfg conn) (world rt)) as [[v [e|]] w] eqn:Ho;
    cbn; rewrite Hn.
  - split_and!; eauto. right. exists conn. by rewrite Ho.
  - split_and!; eauto. exists conn. rewrite Ho. eauto.
Qed.

(** X14. [MustGroup] returns the handle, leaving the state as it is, when
    the group is in the registry, and panics with an error matching
    [ErrGroupNotFound] when it is not; right after [AddGroup] of the name
    it returns. *)
Theorem MustGroup_panics_when_absent (rt : runtime) (n : string) :
  match (manager_MustGroup n rt).1 with
  | Returns h =>
      h = Some (mkGroup n) ∧ is_Some (groups (mgr rt) !! n) ∧
      (manager_MustGroup n rt).2 = rt
  | Panics e =>
      groups (mgr rt) !! n = None ∧ errors_Is e (Some ErrGroupNotFound) = true
  end ∧
  (manager_MustGroup n (manager_AddGroup n rt).2).1 = Returns (Some (mkGroup n)).
Proof.
  unfold manager_MustGroup, manager_AddGroup, manager_Group. unfold_monad. cbn.
  destruct (groups (mgr rt) !! n) as [gm|] eqn:Hg; cbn.
  - rewrite Hg. cbn. eauto.
  - rewrite lookup_insert_eq. cbn. eauto.
Qed.

(** *** An invariant of the records *)

Lemma group_Register_groups (rt : runtime) (g : group) (ctx : Ctx)
    (rname : string) (c : C) :
  groups (mgr (group_Register g ctx rname c rt).2) =
    match groups (mgr rt) !! name g with
    | Some gm =>
        match gm !! rname with
        | Some _ => groups (mgr rt)
        | None => <[name g := <[rname := mkConnection c zero false]> gm]> (groups (mgr rt))
        end
    | None => <[name g := {[ rname := mkConnection c zero false ]}]> (groups (mgr rt))
    end.
Proof.
  unfold group_Register. unfold_monad. cbn.
  destruct (groups (mgr rt) !! name g) as [gm|] eqn:Hg; cbn.
  - by destruct (gm !! rname).
  - rewrite lookup_empty. cbn. by rewrite insert_insert_eq.
Qed.

Lemma unreadyHoldZero_step (rt rt' : runtime) :
  unreadyHoldZero rt →
  (∀ gn n c, groups (mgr rt') !! gn ≫= (.!! n) = Some c →
     groups (mgr rt) !! gn ≫= (.!! n) = Some c ∨ ready c = true ∨ val c = zero) →
  unreadyHoldZero rt'.
Proof.
  intros Hinv Hstep gn n c Hc Hr.
  destruct (Hstep gn n c Hc) as [Hold|[Hrdy|Hz]]; [by eapply Hinv|congruence|done].
Qed.

Lemma lookup2_insert (gs : gmap string (gmap string connection))
    (gn n gn' n' : string) (gm : gmap string connection) (c c' : connection) :
  <[gn := <[n := c]> gm]> gs !! gn' ≫= (.!! n') = Some c' →
  (gn' = gn ∧ n' = n ∧ c' = c) ∨
  (gn' = gn ∧ n' ≠ n ∧ gm !! n' = Some c') ∨
  (gn' ≠ gn ∧ gs !! gn' ≫= (.!! n') = Some c').
Proof.
  destruct (decide (gn' = gn)) as [->|Hgn].
  - rewrite lookup_insert_eq. cbn. destruct (decide (n' = n)) as [->|Hn].
    + rewrite lookup_insert_eq. intros [= <-]. by left.
    + rewrite lookup_insert_ne by done. intros. right. by left.
  - rewrite lookup_insert_ne by done. intros. right. by right.
Qed.

Lemma New_unreadyHoldZero (rt : runtime) (op : Opener) (cl : option Closer) :
  mgr rt = New op cl → unreadyHoldZero rt.
Proof. intros Hm gn n c. rewrite Hm. cbn. by rewrite lookup_empty. Qed.

(** X15. Starting from a state where every unready record holds the zero
    value, as in every state [New] builds, that is still so after
    [AddGroup], [Register], [Get], [Unregister], [Group.Close] and
    [Registry.Close]: a value other than zero is only ever stored together
    with [ready = true]. *)
Theorem unready_records_hold_zero (rt : runtime) (g : group) (ctx : Ctx)
    (gname rname : string) (c : C) :
  unreadyHoldZero rt →
  unreadyHoldZero (manager_AddGroup gname rt).2 ∧
  unreadyHoldZero (group_Register g ctx rname c rt).2 ∧
  unreadyHoldZero (group_Get g ctx rname rt).2 ∧
  unreadyHoldZero (group_Unregister g ctx rname rt).2 ∧
  unreadyHoldZero (group_Close g ctx rt).2 ∧
  unreadyHoldZero (manager_Close ctx rt).2.
Proof.
  intros Hinv. split_and!; apply (unreadyHoldZero_step rt); try done.
  - intros gn n c'. unfold manager_AddGroup. unfold_monad. cbn.
    destruct (groups (mgr rt) !! gname) as [gm|] eqn:Hg; cbn; [eauto|].
    destruct (decide (gn = gname)) as [->|Hgn].
    + rewrite lookup_insert_eq. cbn. by rewrite lookup_empty.
    + rewrite lookup_insert_ne by done. eauto.
  - intros gn n c'. rewrite group_Register_groups.
    destruct (groups (mgr rt) !! name g) as [gm|] eqn:Hg.
    + destruct (gm !! rname) eqn:Hn; [eauto|].
      intros [(-> & -> & ->)|[(-> & Hne & Hc)|(Hne & Hc)]]%lookup2_insert; eauto.
      left. by rewrite Hg.
    + unfold singletonM, map_singleton.
      intros [(-> & -> & ->)|[(-> & Hne & Hc)|(Hne & Hc)]]%lookup2_insert; eauto.
      by rewrite lookup_empty in Hc.
  - intros gn n c'.
    destruct (groups (mgr rt) !! name g) as [gm|] eqn:Hg.
    2: { rewrite group_Get_no_group by done. cbn. eauto. }
    destruct (gm !! rname) as [conn|] eqn:Hn.
    2: { rewrite (group_Get_no_record rt g ctx rname gm) by done. cbn. eauto. }
    rewrite (group_Get_registered rt g ctx rname gm conn Hg Hn).
    destruct (ready conn); [eauto|]. cbn zeta.
    destruct (opener (mgr rt) ctx (cfg conn) (world rt)) as [[v [e|]] w];
      cbn [fst snd withGroups mgr groups afterOpener callOpener]; [eauto|].
    intros [(-> & -> & ->)|[(-> & Hne & Hc)|(Hne & Hc)]]%lookup2_insert; eauto.
    left. by rewrite Hg.
  - intros gn n c'. rewrite group_Unregister_groups.
    destruct (groups (mgr rt) !! name g) as [gm|] eqn:Hg; [|eauto].
    destruct (decide (gn = name g)) as [->|Hgn].
    + rewrite lookup_insert_eq, Hg. cbn. intros Hc. left.
      by apply lookup_delete_Some in Hc as [_ Hc].
    + rewrite lookup_insert_ne by done. eauto.
  - intros gn n c'. rewrite group_Close_groups.
    destruct (decide (gn = name g)) as [->|Hgn].
    + by rewrite lookup_delete_eq.
    + rewrite lookup_delete_ne by done. eauto.
Qed.

(** *** The error constructors, continued *)

(** X16. The errors of the four constructors tell the sentinels apart: a
    group-not-found, resource-not-found or ping error matches, among the
    four sentinels, its own only; a close error matches its own and, of the
    others, those its cause matches. *)
Theorem sentinels_tell_apart (rt : runtime) (groupName resourceName : string)
    (cause : error) :
  Forall (λ s,
    errors_Is (NewErrGroupNotFound groupName rt).1 (Some s) =
      errorValue_eqb s ErrGroupNotFound ∧
    errors_Is (NewErrResourceNotFound groupName resourceName rt).1 (Some s) =
      errorValue_eqb s ErrResourceNotFound ∧
    errors_Is (NewErrPingResourceFailed groupName resourceName cause rt).1 (Some s) =
      errorValue_eqb s ErrPingResourceFailed ∧
    errors_Is (NewErrCloseResourceFailed groupName resourceName cause rt).1 (Some s) =
      errorValue_eqb s ErrCloseResourceFailed || errors_Is cause (Some s))
    sentinels.
Proof.
  unfold sentinels. repeat constructor;
    unfold NewErrCloseResourceFailed; unfold_monad;
    cbn [fst snd errors_Is]; rewrite is_unfold;
    destruct cause as [e|]; cbn; by rewrite ?orb_false_r.
Qed.

(** X17. The error [NewErrCloseResourceFailed] builds around a closer's
    error matches a target exactly when the target is that very error, or
    the sentinel [ErrCloseResourceFailed], or something the closer's error
    matches: the whole chain of the cause stays reachable. *)
Theorem close_error_matches (rt : runtime) (groupName resourceName : string)
    (err target : errorValue) :
  errors_Is (NewErrCloseResourceFailed groupName resourceName (Some err) rt).1
    (Some target) = true ↔
  (NewErrCloseResourceFailed groupName resourceName (Some err) rt).1 = Some target ∨
  target = ErrCloseResourceFailed ∨
  errors_Is (Some err) (Some target) = true.
Proof.
  unfold NewErrCloseResourceFailed. unfold_monad.
  cbn [fst snd errors_Is omap list_omap id].
  rewrite is_unfold. cbn [existsb]. rewrite (is_unfold ErrCloseResourceFailed).
  cbn [ErrCloseResourceFailed]. rewrite !orb_false_r, !orb_true_iff.
  rewrite !errorValue_eqb_eq. split.
  - intros [Ht|[Ht|H]]; [left; by rewrite Ht|by right; left|by right; right].
  - intros [[= Ht]|[Ht|H]]; [by left|by right; left|by right; right].
Qed.

(** *** Close without failures *)

Lemma teardown_ok (cl : Closer) (ctx : Ctx) (ts : list T) (w : W) :
  (∀ c t w', (cl c t w').1 = None) →
  Forall (λ r, r = None) (teardown cl ctx ts w).1.
Proof.
  intros Hok. revert w. induction ts as [|t ts IH]; intros w; cbn; [done|].
  constructor; [apply Hok|apply IH].
Qed.

Lemma failures_ok (recs : list (string * (string * connection)))
    (rs : list error) :
  Forall (λ r, r = None) rs → failures (zip recs rs) = [].
Proof.
  intros Hrs. revert recs. induction Hrs as [|r rs -> _ IH]; intros [|x recs];
    try done.
  cbn [zip zip_with]. unfold failures.
  rewrite filter_cons_False by (cbn; by intros [? [=]]). apply IH.
Qed.

Lemma failures_length (xs : list ((string * (string * connection)) * error)) :
  length (failures xs) ≤ length xs.
Proof. apply length_filter. Qed.

Lemma closeAll_errors (ctx : Ctx) (es : list (string * (string * connection)))
    (rt : runtime) :
  length (closeAll ctx es [] rt).1 ≤ length (readyOnly es) ∧
  ∀ cl, closer (mgr rt) = Some cl → (∀ c t w, (cl c t w).1 = None) →
        (closeAll ctx es [] rt).1 = [].
Proof.
  destruct (closer (mgr rt)) as [cl|] eqn:Hcl.
  - destruct (closeAll_closer cl ctx es [] rt Hcl)
      as (_ & _ & _ & _ & new_errs & -> & Hf). cbn [app]. split.
    + rewrite (Forall2_length _ _ _ Hf).
      etrans; [apply failures_length|]. rewrite length_zip_with. lia.
    + intros cl' [= <-] Hok. rewrite failures_ok in Hf by by apply teardown_ok.
      by apply Forall2_nil_inv_r in Hf.
  - rewrite closeAll_no_closer by done. cbn. split; [lia|done].
Qed.

(** X18. Both [Close] methods return at most one error per ready record
    they visit, and none at all when the closer never fails. *)
Theorem Close_errors_bounded (rt : runtime) (g : group) (ctx : Ctx) :
  length (manager_Close ctx rt).1 ≤
    length (readyOnly (entries (groups (mgr rt)))) ∧
  length (group_Close g ctx rt).1 ≤
    length (readyOnly (from_option (groupEntries (name g)) []
                         (groups (mgr rt) !! name g))) ∧
  ∀ cl, closer (mgr rt) = Some cl → (∀ c t w, (cl c t w).1 = None) →
        (manager_Close ctx rt).1 = [] ∧ (group_Close g ctx rt).1 = [].
Proof.
  rewrite manager_Close_eq, group_Close_eq. cbn [fst].
  destruct (groups (mgr rt) !! name g) as [gm|] eqn:Hg; cbn [fst from_option].
  - split_and!; try apply closeAll_errors.
    intros cl Hcl Hok. split; by eapply closeAll_errors.
  - split_and!; try apply closeAll_errors; [cbn; lia|].
    intros cl Hcl Hok. split; [by eapply closeAll_errors|done].
Qed.

End Registry.

(** ** Properties of maputil *)

Section maputil_properties.

Context {T K V : Type} `{Countable K}.
Variable zeroV : V.

Lemma MapBy_snoc (l : list T) (x : T) (key : T → K) (value : T → V) :
  MapBy (l ++ [x]) key value = <[key x := value x]> (MapBy l key value).
Proof. unfold MapBy. by rewrite fold_left_app. Qed.

(** X19. In the map [MapBy] builds, a key holds the value of the last
    element of the list that has this key, and a key no element has is
    absent: later elements overwrite earlier ones, and the empty list gives
    the empty map. *)
Theorem MapBy_last_wins (l : list T) (key : T → K) (value : T → V) (k : K) :
  MapBy l key value !! k = value <$> last (filter (λ x, key x = k) l).
Proof.
  induction l as [|x l IH] using rev_ind; [done|].
  rewrite MapBy_snoc, filter_app.
  destruct (decide (key x = k)) as [<-|Hne].
  - rewrite lookup_insert_eq, filter_cons_True, filter_nil by done.
    by rewrite last_snoc.
  - rewrite lookup_insert_ne, filter_cons_False, filter_nil, app_nil_r by done.
    apply IH.
Qed.

Lemma MapBy_dom (l : list T) (key : T → K) (value : T → V) :
  dom (MapBy l key value) = list_to_set (key <$> l).
Proof.
  induction l as [|x l IH] using rev_ind; [apply dom_empty_L|].
  rewrite MapBy_snoc, dom_insert_L, IH, fmap_app, list_to_set_app_L. cbn.
  by rewrite (right_id_L ∅ (∪)), (comm_L (∪)).
Qed.

Lemma MapBy_size (l : list T) (key : T → K) (value : T → V) :
  size (MapBy l key value) ≤ length l.
Proof.
  induction l as [|x l IH] using rev_ind; [done|].
  rewrite MapBy_snoc, length_app, map_size_insert. cbn.
  destruct (MapBy l key value !! key x); cbn; lia.
Qed.

(** X20. The keys of the map [MapBy] builds are exactly the keys of the
    list's elements, so the map is never larger than the list; when no two
    elements share a key, the map has as many entries as the list and
    holds, for every element, its value under its key. *)
Theorem MapBy_keys (l : list T) (key : T → K) (value : T → V) :
  dom (MapBy l key value) = list_to_set (key <$> l) ∧
  size (MapBy l key value) ≤ length l ∧
  (NoDup (key <$> l) →
     size (MapBy l key value) = length l ∧
     ∀ x, x ∈ l → MapBy l key value !! key x = Some (value x)).
Proof.
  split_and!; [apply MapBy_dom|apply MapBy_size|]. intros Hnd.
  induction l as [|x l IH] using rev_ind; [split; [done|by intros ? ?%elem_of_nil]|].
  rewrite fmap_app in Hnd. apply NoDup_app in Hnd as (Hnd & Hx & _).
  assert (Hfresh : MapBy l key value !! key x = None).
  { apply not_elem_of_dom. rewrite MapBy_dom, elem_of_list_to_set. intros Hin.
    apply (Hx _ Hin). cbn. apply list_elem_of_here. }
  destruct (IH Hnd) as [IHs IHl].
  rewrite MapBy_snoc, map_size_insert_None, length_app by done.
  split; [cbn; lia|]. intros y [Hy|Hy]%elem_of_app.
  2: { apply list_elem_of_singleton in Hy as ->. apply lookup_insert_eq. }
  - rewrite lookup_insert_ne; [by apply IHl|]. intros Heq.
    apply (Hx (key y)); [apply list_elem_of_fmap; eauto|].
    rewrite <- Heq. cbn. apply list_elem_of_here.
Qed.

(** X21. [MapGet] on the map [MapBy] builds: for a key some element has it
    returns the given function applied to the value of the last such
    element, and true; for a key no element has it returns the zero value
    and false; with a nil function it returns the zero value, and whether
    the key is there. *)
Theorem MapGet_MapBy {U : Type} (zeroU : U) (l : list T) (key : T → K)
    (value : T → V) (k : K) (f : V → U) :
  MapGet zeroU (MapBy l key value) k (Some f) =
    match last (filter (λ x, key x = k) l) with
    | Some x => (f (value x), true)
    | None => (zeroU, false)
    end ∧
  MapGet zeroU (MapBy l key value) k None =
    (zeroU, bool_decide (k ∈ key <$> l)).
Proof.
  unfold MapGet. rewrite MapBy_last_wins.
  destruct (last (filter (λ x, key x = k) l)) as [x|] eqn:Hlast; cbn.
  - split; [done|]. f_equal. symmetry. apply bool_decide_eq_true.
    apply last_Some_elem_of, list_elem_of_filter in Hlast as [<- Hin].
    apply list_elem_of_fmap; eauto.
  - split; [done|]. f_equal. symmetry. apply bool_decide_eq_false.
    apply last_None in Hlast. intros (x & -> & Hin)%list_elem_of_fmap.
    assert (x ∈ filter (λ x0, key x0 = key x) l) as Hx
      by by apply list_elem_of_filter.
    rewrite Hlast in Hx. by apply elem_of_nil in Hx.
Qed.

End maputil_properties.

(** ** The fixtures of the package's tests

    Configurations and resources are numbers, the context is trivial, and
    the callbacks' world is the number of callback invocations so far (the
    tests' atomic counters). *)

(** [%q] on a string that needs no escaping. *)
Definition quotePlain (s : string) : string :=
  String (Ascii.ascii_of_nat 34) (s +:+ String (Ascii.ascii_of_nat 34) EmptyString).

(** [newTestOpener]: the resource is its configuration. *)
Definition newTestOpener : @Opener unit nat nat nat :=
  λ _ c w, ((c, None), S w).

(** [newFailingOpener]: always the error [e], built beforehand. *)
Definition newFailingOpener (e : errorValue) : @Opener unit nat nat nat :=
  λ _ _ w, ((0, Some e), S w).

(** [newTestCloser]. *)
Definition newTestCloser : @Closer unit nat nat :=
  λ _ _ w, (None, S w).

(** [newFailingCloser]: always the error [e], built beforehand. *)
Definition newFailingCloser (e : errorValue) : @Closer unit nat nat :=
  λ _ _ w, (Some e, S w).

(** [errors.New("boom")], the first allocation after the sentinels. *)
Definition boom : errorValue := errorString 4 "boom".

(** A run-time state around a manager: no callback has run, and the
    allocator stands after the sentinels and [boom]. *)
Definition start (m : @manager unit nat nat nat) : runtime :=
  mkRuntime m 0 [] 5.

(** The map iteration order of the fixtures. *)
Definition rangeSorted (A : Type) (m : gmap string A) : list (string * A) :=
  map_to_list m.

(** One group ["g"] with one unready record ["x"] of configuration 7. *)
Definition oneUnready : gmap string (gmap string (@connection nat nat)) :=
  {[ "g" := {[ "x" := mkConnection 7 0 false ]} ]}.

(** Group ["g"] with a ready record ["a"] and an unready ["b"], and a
    sibling group ["h"] with a ready record ["c"]. *)
Definition twoGroups : gmap string (gmap string (@connection nat nat)) :=
  {[ "g" := {[ "a" := mkConnection 1 1 true; "b" := mkConnection 2 0 false ]};
     "h" := {[ "c" := mkConnection 3 3 true ]} ]}.

Lemma Get_caches_on_success_witness :
  let rt := start (mkManager oneUnready (newFailingOpener boom) (Some newTestCloser)) in
  groups (mgr rt) !! "g" = Some {[ "x" := mkConnection 7 0 false ]} ∧
  group_Get 0 quotePlain (mkGroup "g") tt "x" rt =
    ((0, Some boom), afterOpener tt 7 rt) ∧
  calls (group_Get 0 quotePlain (mkGroup "g") tt "x" (afterOpener tt 7 rt)).2 =
    [OpenerCall tt 7 (0, Some boom); OpenerCall tt 7 (0, Some boom)].
Proof.
  cbn zeta. split; [reflexivity|].
  pose proof (Get_caches_on_success 0 quotePlain
    (start (mkManager oneUnready (newFailingOpener boom) (Some newTestCloser)))
    (mkGroup "g") tt "x" {[ "x" := mkConnection 7 0 false ]}
    (mkConnection 7 0 false) eq_refl eq_refl) as H.
  cbn in H. destruct H as (_ & _ & H1 & _ & _ & H2).
  split; [exact H1|exact H2].
Defined.

Lemma Ping_stores_nothing_witness :
  let rt := start (mkManager oneUnready newTestOpener (Some newTestCloser)) in
  let pinged := (group_Ping quotePlain (mkGroup "g") tt "x" rt).2 in
  groups (mgr rt) !! "g" = Some {[ "x" := mkConnection 7 0 false ]} ∧
  record pinged "g" "x" = Some (mkConnection 7 0 false) ∧
  world pinged = 1 ∧
  calls (group_Ping quotePlain (mkGroup "g") tt "x" pinged).2 =
    [OpenerCall tt 7 (7, None); OpenerCall tt 7 (7, None)] ∧
  calls (group_Get 0 quotePlain (mkGroup "g") tt "x" pinged).2 =
    [OpenerCall tt 7 (7, None); OpenerCall tt 7 (7, None)].
Proof.
  cbn zeta. split; [reflexivity|].
  pose proof (Ping_stores_nothing 0 quotePlain
    (start (mkManager oneUnready newTestOpener (Some newTestCloser)))
    (mkGroup "g") tt "x" {[ "x" := mkConnection 7 0 false ]}
    (mkConnection 7 0 false) eq_refl eq_refl) as H.
  cbn zeta in H. destruct H as (_ & H1 & _ & H2 & _ & _ & H3 & H4).
  split; [exact H1|]. split; [exact H2|]. split; [exact H3|].
  cbn [ready] in H4. rewrite H4. vm_compute. reflexivity.
Defined.

Lemma Unregister_closes_then_removes_witness :
  let rt := start (mkManager twoGroups newTestOpener (Some (newFailingCloser boom))) in
  let r := group_Unregister quotePlain (mkGroup "g") tt "a" rt in
  groups (mgr rt) !! "g" =
    Some {[ "a" := mkConnection 1 1 true; "b" := mkConnection 2 0 false ]} ∧
  r.1 = None ∧
  record r.2 "g" "a" = None ∧
  calls r.2 = [CloserCall tt 1 (Some boom)].
Proof.
  cbn zeta. split; [reflexivity|].
  pose proof (Unregister_closes_then_removes quotePlain
    (start (mkManager twoGroups newTestOpener (Some (newFailingCloser boom))))
    (mkGroup "g") tt "a"
    {[ "a" := mkConnection 1 1 true; "b" := mkConnection 2 0 false ]} eq_refl) as H.
  vm_compute in H. destruct H as (H1 & H2 & _ & _ & H3).
  split; [exact H1|]. split; [exact H2|].
  exact (f_equal calls H3).
Defined.

Lemma manager_Close_tears_down_ready_witness :
  let rt := start (mkManager twoGroups newTestOpener (Some (newFailingCloser boom))) in
  let r := manager_Close quotePlain rangeSorted tt rt in
  (∀ (A : Type) (m : gmap string A), rangeSorted A m ≡ₚ map_to_list m) ∧
  mgr r.2 = New newTestOpener (Some (newFailingCloser boom)) ∧
  length r.1 = 2 ∧
  world r.2 = 2.
Proof.
  cbn zeta.
  assert (Hrange : ∀ (A : Type) (m : gmap string A), rangeSorted A m ≡ₚ map_to_list m)
    by (intros A m; reflexivity).
  split; [exact Hrange|].
  pose proof (manager_Close_tears_down_ready quotePlain rangeSorted
    (start (mkManager twoGroups newTestOpener (Some (newFailingCloser boom))))
    tt Hrange) as H.
  cbn zeta in H. destruct H as (_ & _ & H1 & _ & _ & H2 & H3 & _).
  split; [exact H1|]. split; [|rewrite H2; reflexivity].
  rewrite (Forall2_length _ _ _ H3). reflexivity.
Defined.

Lemma group_Close_only_its_group_witness :
  let rt := start (mkManager twoGroups newTestOpener (Some newTestCloser)) in
  let r := group_Close quotePlain rangeSorted (mkGroup "g") tt rt in
  (∀ (A : Type) (m : gmap string A), rangeSorted A m ≡ₚ map_to_list m) ∧
  groups (mgr r.2) !! "g" = None ∧
  groups (mgr r.2) !! "h" = Some {[ "c" := mkConnection 3 3 true ]} ∧
  calls r.2 = [CloserCall tt 1 None].
Proof.
  cbn zeta.
  assert (Hrange : ∀ (A : Type) (m : gmap string A), rangeSorted A m ≡ₚ map_to_list m)
    by (intros A m; reflexivity).
  split; [exact Hrange|].
  pose proof (group_Close_only_its_group quotePlain rangeSorted
    (start (mkManager twoGroups newTestOpener (Some newTestCloser)))
    (mkGroup "g") tt Hrange) as H.
  cbn zeta in H.
  change (groups (mgr (start (mkManager twoGroups newTestOpener (Some newTestCloser))))
            !! name (mkGroup "g"))
    with (Some ({[ "a" := mkConnection 1 1 true; "b" := mkConnection 2 0 false ]}
                  : gmap string (@connection nat nat))) in H.
  cbn iota beta zeta in H.
  destruct H as (_ & _ & _ & H1 & H2 & _ & _ & _ & H3 & _).
  split; [exact H1|]. split; [rewrite H2 by discriminate; reflexivity|].
  rewrite H3. reflexivity.
Defined.

Lemma AddGroup_then_Group_witness :
  let rt := start (New newTestOpener (Some newTestCloser)) in
  let rt1 := (manager_AddGroup "g" rt).2 in
  groups (mgr rt) !! "g" = None ∧
  (manager_AddGroup "g" rt).1 = false ∧
  (manager_AddGroup "g" rt1).1 = true ∧
  (manager_Group quotePlain "g" rt1).1 = (Some (mkGroup "g"), None) ∧
  errors_Is (manager_Group quotePlain "missing" rt1).1.2 (Some ErrGroupNotFound) = true.
Proof.
  cbn zeta. split; [reflexivity|].
  pose proof (AddGroup_then_Group quotePlain
    (start (New newTestOpener (Some newTestCloser))) "g" eq_refl) as H.
  cbn zeta in H. destruct H as (H1 & H2 & H3 & H4).
  split; [by rewrite H1|]. split; [by rewrite H2|]. split; [by rewrite H3|].
  apply (H4 "missing"). reflexivity.
Defined.

Lemma Ping_error_drops_cause_witness :
  let rt := start (New newTestOpener (Some newTestCloser)) in
  boom ≠ ErrPingResourceFailed ∧
  addr_of boom < next rt ∧
  errors_Is (NewErrPingResourceFailed quotePlain "g" "x" (Some boom) rt).1
    (Some boom) = false ∧
  errors_Is (NewErrCloseResourceFailed quotePlain "g" "x" (Some boom) rt).1
    (Some boom) = true.
Proof.
  cbn zeta.
  assert (Hne : boom ≠ ErrPingResourceFailed) by discriminate.
  assert (Hold : addr_of boom < next (start (New newTestOpener (Some newTestCloser))))
    by (vm_compute; lia).
  split; [exact Hne|]. split; [exact Hold|].
  pose proof (Ping_error_drops_cause quotePlain
    (start (New newTestOpener (Some newTestCloser))) "g" "x" boom Hne Hold) as H.
  destruct H as (_ & H1 & H2). split; [exact H1|exact H2].
Defined.

(** C9 as stated fails when the callback's error is the sentinel itself:
    the error [NewErrPingResourceFailed] builds then matches the callback's
    error under [errors.Is]. *)
Lemma Ping_error_matches_sentinel_cause :
  errors_Is
    (NewErrPingResourceFailed quotePlain "g" "x" (Some ErrPingResourceFailed)
       (start (New newTestOpener (Some newTestCloser)))).1
    (Some ErrPingResourceFailed) = true.
Proof. reflexivity. Qed.

Lemma rangeSorted_perm :
  ∀ (A : Type) (m : gmap string A), rangeSorted A m ≡ₚ map_to_list m.
Proof. intros A m. reflexivity. Defined.

Lemma Get_not_found_witness :
  let rt := start (mkManager oneUnready newTestOpener (Some newTestCloser)) in
  record rt "g" "nonexistent" = None ∧
  (group_Get 0 quotePlain (mkGroup "g") tt "nonexistent" rt).1.1 = 0 ∧
  calls (group_Get 0 quotePlain (mkGroup "g") tt "nonexistent" rt).2 = [].
Proof.
  cbn zeta. split; [reflexivity|].
  pose proof (Get_not_found 0 quotePlain
    (start (mkManager oneUnready newTestOpener (Some newTestCloser)))
    (mkGroup "g") tt "nonexistent" eq_refl) as H.
  cbn zeta in H. destruct H as (H1 & _ & H2 & _).
  split; [exact H1|exact H2].
Defined.

Lemma Get_again_is_cached_witness :
  let rt := start (mkManager oneUnready newTestOpener (Some newTestCloser)) in
  let got := group_Get 0 quotePlain (mkGroup "g") tt "x" rt in
  got.1.2 = None ∧
  group_Get 0 quotePlain (mkGroup "g") tt "x" got.2 = ((7, None), got.2).
Proof.
  cbn zeta. split; [reflexivity|].
  exact (Get_again_is_cached 0 quotePlain
    (start (mkManager oneUnready newTestOpener (Some newTestCloser)))
    (mkGroup "g") tt tt "x" eq_refl).
Defined.

Lemma Register_then_Get_witness :
  let rt := start (New newTestOpener (Some newTestCloser)) in
  let registered := (group_Register 0 (mkGroup "g") tt "x" 7 rt).2 in
  record rt "g" "x" = None ∧
  (group_Get 0 quotePlain (mkGroup "g") tt "x" registered).1 = (7, None) ∧
  calls (group_Get 0 quotePlain (mkGroup "g") tt "x" registered).2 =
    [OpenerCall tt 7 (7, None)].
Proof.
  cbn zeta. split; [reflexivity|].
  pose proof (Register_then_Get 0 quotePlain
    (start (New newTestOpener (Some newTestCloser)))
    (mkGroup "g") tt tt "x" 7 eq_refl) as H.
  cbn zeta in H. destruct H as (H1 & _ & H2 & _).
  split; [exact H2|exact H1].
Defined.

Lemma Unregister_then_Get_Register_witness :
  let rt := start (mkManager twoGroups newTestOpener (Some newTestCloser)) in
  let gone := (group_Unregister quotePlain (mkGroup "g") tt "a" rt).2 in
  groups (mgr rt) !! "g" =
    Some {[ "a" := mkConnection 1 1 true; "b" := mkConnection 2 0 false ]} ∧
  errors_Is (group_Get 0 quotePlain (mkGroup "g") tt "a" gone).1.2
    (Some ErrResourceNotFound) = true ∧
  (group_Register 0 (mkGroup "g") tt "a" 9 gone).1 = (true, None).
Proof.
  cbn zeta. split; [reflexivity|].
  pose proof (Unregister_then_Get_Register 0 quotePlain
    (start (mkManager twoGroups newTestOpener (Some newTestCloser)))
    (mkGroup "g") tt tt "a" 9
    {[ "a" := mkConnection 1 1 true; "b" := mkConnection 2 0 false ]}
    (mkConnection 1 1 true) eq_refl eq_refl) as H.
  cbn zeta in H. destruct H as (H1 & _ & H2 & _).
  split; [exact H1|exact H2].
Defined.

Lemma List_lists_registered_witness :
  let rt := start (mkManager twoGroups newTestOpener (Some newTestCloser)) in
  (∀ (A : Type) (m : gmap string A), rangeSorted A m ≡ₚ map_to_list m) ∧
  length (group_List rangeSorted (mkGroup "g") rt).1 = 2 ∧
  "a" ∈ (group_List rangeSorted (mkGroup "g") rt).1.
Proof.
  cbn zeta. split; [exact rangeSorted_perm|].
  pose proof (List_lists_registered rangeSorted
    (start (mkManager twoGroups newTestOpener (Some newTestCloser)))
    (mkGroup "g") rangeSorted_perm) as H.
  cbn zeta in H. destruct H as (_ & _ & H1 & H2).
  split; [rewrite H2; reflexivity|].
  apply H1. exists (mkConnection 1 1 true); reflexivity.
Defined.

Lemma ListGroupNames_lists_groups_witness :
  let rt := start (mkManager twoGroups newTestOpener (Some newTestCloser)) in
  (∀ (A : Type) (m : gmap string A), rangeSorted A m ≡ₚ map_to_list m) ∧
  length (manager_ListGroupNames rangeSorted rt).1 = 2 ∧
  "h" ∈ (manager_ListGroupNames rangeSorted rt).1.
Proof.
  cbn zeta. split; [exact rangeSorted_perm|].
  pose proof (ListGroupNames_lists_groups rangeSorted
    (start (mkManager twoGroups newTestOpener (Some newTestCloser)))
    rangeSorted_perm) as H.
  cbn zeta in H. destruct H as (_ & _ & H1 & H2).
  split; [rewrite H2; reflexivity|].
  apply H1. exists {[ "c" := mkConnection 3 3 true ]}; reflexivity.
Defined.

Lemma after_manager_Close_witness :
  let rt := start (mkManager twoGroups newTestOpener (Some newTestCloser)) in
  let closed := (manager_Close quotePlain rangeSorted tt rt).2 in
  (∀ (A : Type) (m : gmap string A), rangeSorted A m ≡ₚ map_to_list m) ∧
  (manager_ListGroupNames rangeSorted closed).1 = [] ∧
  manager_Close quotePlain rangeSorted tt closed = ([], closed).
Proof.
  cbn zeta. split; [exact rangeSorted_perm|].
  pose proof (after_manager_Close 0 quotePlain rangeSorted
    (start (mkManager twoGroups newTestOpener (Some newTestCloser)))
    tt tt rangeSorted_perm) as H.
  cbn zeta in H. destruct H as (H1 & _ & _ & H2).
  split; [exact H1|exact H2].
Defined.

Lemma after_group_Close_witness :
  let rt := start (mkManager twoGroups newTestOpener (Some newTestCloser)) in
  let closed := (group_Close quotePlain rangeSorted (mkGroup "g") tt rt).2 in
  (∀ (A : Type) (m : gmap string A), rangeSorted A m ≡ₚ map_to_list m) ∧
  errors_Is (group_Get 0 quotePlain (mkGroup "g") tt "a" closed).1.2
    (Some ErrGroupNotFound) = true ∧
  record (group_Register 0 (mkGroup "g") tt "z" 9 closed).2 "g" "a" = None.
Proof.
  cbn zeta. split; [exact rangeSorted_perm|].
  pose proof (after_group_Close 0 quotePlain rangeSorted
    (start (mkManager twoGroups newTestOpener (Some newTestCloser)))
    (mkGroup "g") tt tt "z" 9 rangeSorted_perm) as H.
  cbn zeta in H. destruct H as (_ & _ & _ & _ & _ & H1).
  split; [|exact (H1 "a")].
  pose proof (after_group_Close 0 quotePlain rangeSorted
    (start (mkManager twoGroups newTestOpener (Some newTestCloser)))
    (mkGroup "g") tt tt "a" 9 rangeSorted_perm) as H'.
  cbn zeta in H'. destruct H' as (H2 & _). exact H2.
Defined.

Lemma NewGroup_is_New_AddGroup_Group_witness :
  let rt := start (New newTestOpener (Some newTestCloser)) in
  mgr rt = New newTestOpener (Some newTestCloser) ∧
  (manager_Group quotePlain defaultGroupName
     (manager_AddGroup defaultGroupName rt).2).1 =
    (Some (NewGroup newTestOpener (Some newTestCloser)).2, None).
Proof.
  cbn zeta. split; [reflexivity|].
  pose proof (NewGroup_is_New_AddGroup_Group quotePlain
    (start (New newTestOpener (Some newTestCloser)))
    newTestOpener (Some newTestCloser) eq_refl) as H.
  cbn zeta in H. destruct H as (_ & H1 & _). exact H1.
Defined.

Lemma unready_records_hold_zero_witness :
  let rt := start (New newTestOpener (Some newTestCloser)) in
  unreadyHoldZero 0 rt ∧
  unreadyHoldZero 0 (group_Register 0 (mkGroup "g") tt "x" 7 rt).2 ∧
  unreadyHoldZero 0 (group_Get 0 quotePlain (mkGroup "g") tt "x" rt).2.
Proof.
  cbn zeta.
  assert (Hinv : unreadyHoldZero 0 (start (New newTestOpener (Some newTestCloser)))).
  { intros gn n c H. vm_compute in H. discriminate H. }
  split; [exact Hinv|].
  pose proof (unready_records_hold_zero 0 quotePlain rangeSorted
    (start (New newTestOpener (Some newTestCloser)))
    (mkGroup "g") tt "g" "x" 7 Hinv) as H.
  destruct H as (_ & H1 & H2 & _). split; [exact H1|exact H2].
Defined.
